(** * Sharded key-value store: shallow embedding and verification

    The development follows the store engine of the REST key-value
    server (second program of [10.Sharpness_Value_using_dp.c]):
    [get_shard_index], [set_key], [get_key], [delete_key],
    [persist_to_disk], [load_from_disk], [replicate_to_followers] and
    the request processing of [http_handler].

    Conventions of the embedding.
    - A [const char *] argument or a [char] buffer holding a
      NUL-terminated string is represented by the [string] of the bytes
      that precede the terminator.
    - Plain [char] is signed, as on the x86-64 GNU/Linux target of the
      build notes in the source ([char_to_int]); the unsigned reading is
      given next to it ([uchar_to_int]).
    - The global [kv_shards] is a list of [SHARD_COUNT] shards, each a
      list of [MAX_KEYS] entries ([wf_store]); the mutexes are not
      represented (one operation runs at a time).
    - An execution that leaves the arrays or buffers of the program
      (a negative shard index, a [strcpy] or [%s] longer than its
      buffer, a read of an unwritten buffer) has no meaning in C: it is
      the outcome [Undefined].
    - The observable actions of an operation (log line, snapshot
      written, [system] call, [printf]) are returned as a list of
      events.
    - [PERSISTENCE_FILE] is the [string] of its current content, and the
      stream that reads it has its buffer ([stream]): [set_key] rewrites
      the file while [load_from_disk] reads it. *)

From Stdlib Require Import ZArith Ascii String List Lia Bool.
From stdpp Require Import base list strings.

Local Open Scope string_scope.
Local Open Scope list_scope.

(** ** Configuration ([#define]s) *)

Definition MAX_KEYS : nat := 100.
Definition MAX_KEY_LENGTH : nat := 50.
Definition MAX_VALUE_LENGTH : nat := 100.
Definition SHARD_COUNT : Z := 3.
Definition REPLICA_SERVER : string := "http://127.0.0.1:8081/set/".
Definition MHD_HTTP_OK : Z := 200.
Definition MHD_HTTP_BAD_REQUEST : Z := 400.
Definition MHD_HTTP_NOT_FOUND : Z := 404.

(** ** Router *)

(** Value of a [char] promoted to [int], [char] being signed. *)
Definition char_to_int (c : ascii) : Z :=
  let n := Z.of_N (N_of_ascii c) in
  if (n <? 128)%Z then n else (n - 256)%Z.

(** The same on an ABI whose plain [char] is unsigned. *)
Definition uchar_to_int (c : ascii) : Z := Z.of_N (N_of_ascii c).

(** The loop of [get_shard_index]: [hash = (hash * 31 + key[i]) % SHARD_COUNT]
    for every byte up to the terminator.  C's [%] truncates towards
    zero: [Z.rem]. *)
Fixpoint shard_loop (conv : ascii -> Z) (key : string) (hash : Z) : Z :=
  match key with
  | EmptyString => hash
  | String c rest => shard_loop conv rest (Z.rem (hash * 31 + conv c) SHARD_COUNT)
  end.

Definition get_shard_index (key : string) : Z := shard_loop char_to_int key 0.

Definition get_shard_index_unsigned (key : string) : Z := shard_loop uchar_to_int key 0.

(** ** Data model *)

Record KVEntry : Type := mkEntry {
  key : string;
  value : string;
  is_active : bool
}.

Abbreviation KVShard := (list KVEntry).
Abbreviation KVStore := (list (list KVEntry)).

(** Static storage is zero-initialised. *)
Definition empty_entry : KVEntry := mkEntry "" "" false.
Definition init_shard : KVShard := replicate MAX_KEYS empty_entry.
Definition init_store : KVStore := replicate (Z.to_nat SHARD_COUNT) init_shard.

Definition wf_shard (sh : KVShard) : Prop := length sh = MAX_KEYS.
Definition wf_store (kv : KVStore) : Prop :=
  length kv = Z.to_nat SHARD_COUNT /\ Forall wf_shard kv.

(** ** Outcomes and events *)

Inductive ub : Type :=
| ShardIndexOutOfBounds
| KeyBufferOverrun
| ValueBufferOverrun
| UninitializedRead.

Inductive outcome (A : Type) : Type :=
| Done (a : A)
| Undefined (why : ub).
Arguments Done {A} a.
Arguments Undefined {A} why.

#[global] Instance outcome_bind : MBind outcome := fun A B f m =>
  match m with
  | Done a => f a
  | Undefined why => Undefined why
  end.

Inductive event : Type :=
| EvLog (operation k : string)
| EvPersist (content : string)
| EvReplicate (k v command : string) (status : Z)
| EvPrintf (text : string).

(** ** Slot scans *)

(** [for (i = 0; i < MAX_KEYS; i++) if (p(store[i])) ...]: the first index
    whose entry satisfies [p]. *)
Fixpoint find_slot (p : KVEntry -> bool) (sh : KVShard) : option nat :=
  match sh with
  | [] => None
  | e :: rest => if p e then Some 0 else S <$> find_slot p rest
  end.

(** [!store[i].is_active || strcmp(store[i].key, key) == 0] *)
Definition slot_usable (k : string) (e : KVEntry) : bool :=
  negb (is_active e) || String.eqb (key e) k.

(** [store[i].is_active && strcmp(store[i].key, key) == 0] *)
Definition slot_matches (k : string) (e : KVEntry) : bool :=
  is_active e && String.eqb (key e) k.

(** [kv_shards[shard_index]] *)
Definition shard_at (kv : KVStore) (shard_index : Z) : outcome KVShard :=
  if (shard_index <? 0)%Z then Undefined ShardIndexOutOfBounds
  else match kv !! Z.to_nat shard_index with
       | Some sh => Done sh
       | None => Undefined ShardIndexOutOfBounds
       end.

(** ** Persistence: writer *)

Definition newline : string := String (ascii_of_nat 10) EmptyString.

(** [fprintf(file, "%s %s\n", key, value)] for an active entry. *)
Definition persist_entry (e : KVEntry) : string :=
  if is_active e then key e +:+ " " +:+ value e +:+ newline else "".

Fixpoint persist_shard (sh : KVShard) : string :=
  match sh with
  | [] => ""
  | e :: rest => persist_entry e +:+ persist_shard rest
  end.

(** The text [persist_to_disk] writes to [PERSISTENCE_FILE]. *)
Fixpoint persist_to_disk (kv : KVStore) : string :=
  match kv with
  | [] => ""
  | sh :: rest => persist_shard sh +:+ persist_to_disk rest
  end.

(** ** Replication *)

(** [snprintf(command, 256, "curl -X POST %s%s/%s", REPLICA_SERVER, key, value)]
    keeps at most 255 bytes; the status of [system] is dropped. *)
Definition replicate_command (k v : string) : string :=
  substring 0 255 ("curl -X POST " +:+ REPLICA_SERVER +:+ k +:+ "/" +:+ v).

Definition replicate_to_followers (system : string -> Z) (k v : string) : list event :=
  let command := replicate_command k v in
  [EvReplicate k v command (system command)].

(** ** Store operations *)

Definition set_key (system : string -> Z) (k v : string) (kv : KVStore)
  : outcome (KVStore * list event) :=
  let shard_index := get_shard_index k in
  sh ← shard_at kv shard_index;
  match find_slot (slot_usable k) sh with
  | Some i =>
      if (MAX_KEY_LENGTH <=? String.length k)%nat then Undefined KeyBufferOverrun
      else if (MAX_VALUE_LENGTH <=? String.length v)%nat then Undefined ValueBufferOverrun
      else
        let kv' := <[Z.to_nat shard_index := <[i := mkEntry k v true]> sh]> kv in
        Done (kv', EvLog "SET" k :: EvPersist (persist_to_disk kv')
                     :: replicate_to_followers system k v)
  | None => Done (kv, [])
  end.

Definition get_key (k : string) (kv : KVStore) : outcome (option string) :=
  sh ← shard_at kv (get_shard_index k);
  match find_slot (slot_matches k) sh with
  | Some i => Done (value <$> sh !! i)
  | None => Done None
  end.

Definition deactivate (e : KVEntry) : KVEntry := mkEntry (key e) (value e) false.

Definition delete_key (k : string) (kv : KVStore) : outcome (KVStore * list event) :=
  let shard_index := get_shard_index k in
  sh ← shard_at kv shard_index;
  match find_slot (slot_matches k) sh with
  | Some i =>
      Done (<[Z.to_nat shard_index := alter deactivate i sh]> kv,
            [EvPrintf ("Deleted key: " +:+ k +:+ newline)])
  | None => Done (kv, [])
  end.

(** ** Persistence: reader *)

(** [isspace] in the C locale. *)
Definition isspace (c : ascii) : bool :=
  let n := nat_of_ascii c in
  (n =? 32)%nat || ((9 <=? n)%nat && (n <=? 13)%nat).

(** The words successive [%s] conversions read from a stream: its
    maximal runs of bytes that are not white space.  [cur] is the word
    being read. *)
Fixpoint scan_words (stream cur : string) : list string :=
  match stream with
  | EmptyString => match cur with EmptyString => [] | _ => [cur] end
  | String c rest =>
      if isspace c then
        match cur with
        | EmptyString => scan_words rest ""
        | _ => cur :: scan_words rest ""
        end
      else scan_words rest (cur +:+ String c "")
  end.

(** The loop [while (fscanf(file, "%s %s", key, value) != EOF) set_key(key, value)]
    over the words the conversions deliver.  [value_buf] is the content of
    the local buffer [value] ([None] before its first write).  With one
    word left [fscanf] converts the key only and returns 1, so [set_key]
    runs with the value of the round before. *)
Fixpoint load_words (system : string -> Z) (words : list string)
    (value_buf : option string) (kv : KVStore) : outcome (KVStore * list event) :=
  match words with
  | [] => Done (kv, [])
  | k :: [] =>
      if (MAX_KEY_LENGTH <=? String.length k)%nat then Undefined KeyBufferOverrun
      else match value_buf with
           | None => Undefined UninitializedRead
           | Some v => set_key system k v kv
           end
  | k :: v :: rest =>
      if (MAX_KEY_LENGTH <=? String.length k)%nat then Undefined KeyBufferOverrun
      else if (MAX_VALUE_LENGTH <=? String.length v)%nat then Undefined ValueBufferOverrun
      else
        r ← set_key system k v kv;
        r' ← load_words system rest (Some v) r.1;
        Done (r'.1, r.2 ++ r'.2)
  end.

(** *** The stream of [load_from_disk]

    [set_key] calls [persist_to_disk] inside the loop of [load_from_disk],
    and [persist_to_disk] reopens [PERSISTENCE_FILE] with mode ["w"]: the
    file is truncated and rewritten while the stream [file] still reads
    it.  What the stream has buffered is not affected; the next time its
    buffer is empty it reads the file as it is then, at the offset the
    descriptor has reached.  The stream is therefore represented with
    its buffer, and the file by its current content [disk]. *)

Record stream : Type := mkStream {
  buffered : string;  (* bytes read from the file and not consumed yet *)
  offset : nat;       (* file offset of the descriptor *)
  at_eof : bool       (* end-of-file indicator of the stream *)
}.

(** The next byte of the stream, left in the stream.  With an empty
    buffer and the end-of-file indicator clear, one [read] of at most
    [bufsize] bytes (the size of the buffer of the stream: [st_blksize]
    with glibc, 4096 on the usual file systems) takes the bytes of
    [disk] from [offset] on; no byte there sets the indicator, and a
    set indicator ends every later read (ISO C, 7.21.7.1). *)
Definition peek (bufsize : nat) (disk : string) (f : stream) : option ascii * stream :=
  match buffered f with
  | String c _ => (Some c, f)
  | EmptyString =>
      if at_eof f then (None, f)
      else match substring (offset f) bufsize disk with
           | EmptyString => (None, mkStream "" (offset f) true)
           | String c rest =>
               (Some c, mkStream (String c rest)
                                 (offset f + String.length (String c rest)) false)
           end
  end.

(** The stream after its next byte is consumed. *)
Definition advance (f : stream) : stream :=
  match buffered f with
  | String _ rest => mkStream rest (offset f) (at_eof f)
  | EmptyString => f
  end.

(** White space skipped in front of a conversion.  [steps] bounds the
    number of bytes looked at ([None]: not finished within the bound). *)
Fixpoint skip_stream_space (steps bufsize : nat) (disk : string) (f : stream)
  : option stream :=
  match steps with
  | O => None
  | S steps' =>
      match peek bufsize disk f with
      | (Some c, f') =>
          if isspace c then skip_stream_space steps' bufsize disk (advance f')
          else Some f'
      | (None, f') => Some f'
      end
  end.

(** The bytes up to the next white space, which stays in the stream, or
    up to the end of the input, appended to [cur]. *)
Fixpoint read_word (steps bufsize : nat) (disk : string) (f : stream) (cur : string)
  : option (string * stream) :=
  match steps with
  | O => None
  | S steps' =>
      match peek bufsize disk f with
      | (Some c, f') =>
          if isspace c then Some (cur, f')
          else read_word steps' bufsize disk (advance f') (cur +:+ String c "")
      | (None, f') => Some (cur, f')
      end
  end.

(** One [%s] conversion: the word read, [None] when the input ends
    before a byte of it. *)
Definition conv_s (steps bufsize : nat) (disk : string) (f : stream)
  : option (option string * stream) :=
  f1 ← skip_stream_space steps bufsize disk f;
  r ← read_word steps bufsize disk f1 "";
  Some (match r.1 with EmptyString => None | _ => Some r.1 end, r.2).

(** What one [fscanf(file, "%s %s", key, value)] returns: [EOF], 1 with
    the key converted, or 2 with both. *)
Inductive scanned : Type :=
| ScanEOF
| ScanKey (k : string)
| ScanPair (k v : string).

Definition fscanf_pair (steps bufsize : nat) (disk : string) (f : stream)
  : option (scanned * stream) :=
  r ← conv_s steps bufsize disk f;
  match r.1 with
  | None => Some (ScanEOF, r.2)
  | Some k =>
      r' ← conv_s steps bufsize disk r.2;
      Some (match r'.1 with None => ScanKey k | Some v => ScanPair k v end, r'.2)
  end.

(** The content of [PERSISTENCE_FILE] after an operation with events [t]:
    the last snapshot written, or [disk] when none was. *)
Fixpoint written (t : list event) (disk : string) : string :=
  match t with
  | [] => disk
  | EvPersist content :: rest => written rest content
  | _ :: rest => written rest disk
  end.

(** [set_key(key, value)] with outcome [r], then the rest of the loop. *)
Definition then_load (r : outcome (KVStore * list event))
    (rest : KVStore -> list event -> option (outcome (KVStore * list event)))
  : option (outcome (KVStore * list event)) :=
  match r with
  | Undefined why => Some (Undefined why)
  | Done (kv', t) =>
      match rest kv' t with
      | Some (Done (kv'', t')) => Some (Done (kv'', t ++ t'))
      | other => other
      end
  end.

(** The loop [while (fscanf(file, "%s %s", key, value) != EOF) set_key(key, value)]
    on the stream: every [set_key] that stores rewrites [disk].  [fuel]
    bounds the number of [fscanf] calls and [steps] the bytes one
    conversion looks at. *)
Fixpoint load_stream (fuel steps : nat) (system : string -> Z) (bufsize : nat)
    (disk : string) (file : stream) (value_buf : option string) (kv : KVStore)
  : option (outcome (KVStore * list event)) :=
  match fuel with
  | O => None
  | S fuel' =>
      match fscanf_pair steps bufsize disk file with
      | None => None
      | Some (ScanEOF, _) => Some (Done (kv, []))
      | Some (ScanKey k, file') =>
          if (MAX_KEY_LENGTH <=? String.length k)%nat then Some (Undefined KeyBufferOverrun)
          else match value_buf with
               | None => Some (Undefined UninitializedRead)
               | Some v =>
                   then_load (set_key system k v kv) (fun kv' t =>
                     load_stream fuel' steps system bufsize (written t disk) file'
                                 (Some v) kv')
               end
      | Some (ScanPair k v, file') =>
          if (MAX_KEY_LENGTH <=? String.length k)%nat then Some (Undefined KeyBufferOverrun)
          else if (MAX_VALUE_LENGTH <=? String.length v)%nat
               then Some (Undefined ValueBufferOverrun)
          else
            then_load (set_key system k v kv) (fun kv' t =>
              load_stream fuel' steps system bufsize (written t disk) file'
                          (Some v) kv')
      end
  end.

(** [file] is the content of [PERSISTENCE_FILE] when it is opened, [None]
    when [fopen] fails.  [fuel] bounds both the [fscanf] calls and the
    bytes of one conversion; the result is [None] when the loop has not
    ended within it. *)
Definition load_from_disk (system : string -> Z) (bufsize fuel : nat)
    (file : option string) (kv : KVStore)
  : option (outcome (KVStore * list event)) :=
  match file with
  | None => Some (Done (kv, []))
  | Some content =>
      load_stream fuel fuel system bufsize content (mkStream "" 0 false) None kv
  end.

(** ** REST handler *)

Definition dquote : string := String (ascii_of_nat 34) EmptyString.
Definition slash : ascii := ascii_of_nat 47.

(** The scan sets [[^/]] and (for [%s]) "no white space". *)
Definition not_slash (c : ascii) : bool := negb (Ascii.eqb c slash).
Definition not_space (c : ascii) : bool := negb (isspace c).

(** The longest prefix of at most [n] bytes that satisfy [p], and the rest. *)
Fixpoint scan_while (n : nat) (p : ascii -> bool) (s : string) : string * string :=
  match n, s with
  | S n', String c rest =>
      if p c then let '(w, r) := scan_while n' p rest in (String c w, r)
      else ("", s)
  | _, _ => ("", s)
  end.

Fixpoint skip_space (s : string) : string :=
  match s with
  | String c rest => if isspace c then skip_space rest else s
  | EmptyString => s
  end.

Fixpoint strip_prefix (p s : string) : option string :=
  match p, s with
  | EmptyString, _ => Some s
  | String a p', String b s' => if Ascii.eqb a b then strip_prefix p' s' else None
  | String _ _, EmptyString => None
  end.

(** [sscanf(url, "/set/%49[^/]/%99s", key, value) == 2], with the two
    converted strings. *)
Definition sscanf_set (url : string) : option (string * string) :=
  rest ← strip_prefix "/set/" url;
  let '(k, rest) := scan_while 49 not_slash rest in
  match k, rest with
  | String _ _, String c rest =>
      if Ascii.eqb c slash then
        let '(v, _) := scan_while 99 not_space (skip_space rest) in
        match v with
        | String _ _ => Some (k, v)
        | EmptyString => None
        end
      else None
  | _, _ => None
  end.

(** [sscanf(url, fmt "%s", key)] for [fmt] one of ["/get/"], ["/delete/"]:
    the word converted, if any. *)
Definition sscanf_word (fmt url : string) : option string :=
  rest ← strip_prefix fmt url;
  match scan_words rest "" with
  | w :: _ => Some w
  | [] => None
  end.

(** [snprintf(response_buffer, 1024, ...)] *)
Definition response (body : string) : string := substring 0 1023 body.

Record reply : Type := mkReply {
  status_code : Z;
  response_buffer : string
}.

(** The request processing of [http_handler] (its second invocation for a
    connection). *)
Definition http_handler (system : string -> Z) (method url : string) (kv : KVStore)
  : outcome (reply * KVStore * list event) :=
  if String.eqb method "GET" && String.prefix "/get/" url then
    match sscanf_word "/get/" url with
    | None => Undefined UninitializedRead
    | Some k =>
        if (MAX_KEY_LENGTH <=? String.length k)%nat then Undefined KeyBufferOverrun
        else
          r ← get_key k kv;
          match r with
          | Some v =>
              Done (mkReply MHD_HTTP_OK
                      (response ("{" +:+ dquote +:+ k +:+ dquote +:+ ": "
                                 +:+ dquote +:+ v +:+ dquote +:+ "}")), kv, [])
          | None =>
              Done (mkReply MHD_HTTP_NOT_FOUND
                      (response ("{" +:+ dquote +:+ "error" +:+ dquote +:+ ": "
                                 +:+ dquote +:+ "Key not found" +:+ dquote +:+ "}")), kv, [])
          end
    end
  else if String.eqb method "POST" && String.prefix "/set/" url then
    match sscanf_set url with
    | Some (k, v) =>
        r ← set_key system k v kv;
        Done (mkReply MHD_HTTP_OK
                (response ("{" +:+ dquote +:+ "message" +:+ dquote +:+ ": "
                           +:+ dquote +:+ "Key '" +:+ k +:+ "' set successfully"
                           +:+ dquote +:+ "}")), r.1, r.2)
    | None =>
        Done (mkReply MHD_HTTP_BAD_REQUEST
                (response ("{" +:+ dquote +:+ "error" +:+ dquote +:+ ": "
                           +:+ dquote +:+ "Invalid key-value format" +:+ dquote +:+ "}")),
              kv, [])
    end
  else if String.eqb method "DELETE" && String.prefix "/delete/" url then
    match sscanf_word "/delete/" url with
    | None => Undefined UninitializedRead
    | Some k =>
        if (MAX_KEY_LENGTH <=? String.length k)%nat then Undefined KeyBufferOverrun
        else
          r ← delete_key k kv;
          Done (mkReply MHD_HTTP_OK
                  (response ("{" +:+ dquote +:+ "message" +:+ dquote +:+ ": "
                             +:+ dquote +:+ "Key '" +:+ k +:+ "' deleted"
                             +:+ dquote +:+ "}")), r.1, r.2)
    end
  else
    Done (mkReply MHD_HTTP_BAD_REQUEST
            (response ("{" +:+ dquote +:+ "error" +:+ dquote +:+ ": "
                       +:+ dquote +:+ "Unsupported Operation" +:+ dquote +:+ "}")), kv, []).

(** ** Runs of the store *)

(** An operation of a run.  A load is given by the words its [%s]
    conversions deliver, whatever the buffering of the stream and the
    rewriting of the file make them ([load_stream_delivers]). *)
Inductive op : Type :=
| OpSet (k v : string)
| OpGet (k : string)
| OpDelete (k : string)
| OpLoad (words : list string).

Definition step (system : string -> Z) (o : op) (kv : KVStore) : outcome KVStore :=
  match o with
  | OpSet k v => r ← set_key system k v kv; Done r.1
  | OpGet k => _ ← get_key k kv; Done kv
  | OpDelete k => r ← delete_key k kv; Done r.1
  | OpLoad words => r ← load_words system words None kv; Done r.1
  end.

Fixpoint run (system : string -> Z) (ops : list op) (kv : KVStore) : outcome KVStore :=
  match ops with
  | [] => Done kv
  | o :: rest => kv' ← step system o kv; run system rest kv'
  end.

(** States the program can be in: those a run of defined operations
    produces from the zero-initialised store. *)
Definition reachable (kv : KVStore) : Prop :=
  exists system ops, run system ops init_store = Done kv.

(** ** Auxiliary definitions of the verification *)

Definition INT_MIN : Z := (- 2147483648)%Z.
Definition INT_MAX : Z := 2147483647%Z.

(** Every [hash * 31 + key[i]] the loop computes fits an [int]. *)
Fixpoint shard_loop_in_int (conv : ascii -> Z) (k : string) (hash : Z) : Prop :=
  match k with
  | EmptyString => True
  | String c rest =>
      (INT_MIN <= hash * 31 + conv c <= INT_MAX)%Z /\
      shard_loop_in_int conv rest (Z.rem (hash * 31 + conv c) SHARD_COUNT)
  end.

Definition is_ascii7 (c : ascii) : bool := (N_of_ascii c <? 128)%N.

Fixpoint ascii7_key (k : string) : bool :=
  match k with
  | EmptyString => true
  | String c rest => is_ascii7 c && ascii7_key rest
  end.

(** Sum of the bytes of a key, as [int]s. *)
Fixpoint byte_sum (k : string) : Z :=
  match k with
  | EmptyString => 0
  | String c rest => (char_to_int c + byte_sum rest)%Z
  end.

Definition shard_set (k v : string) (sh : KVShard) : option KVShard :=
  match find_slot (slot_usable k) sh with
  | Some i => Some (<[i := mkEntry k v true]> sh)
  | None => None
  end.

Definition shard_get (k : string) (sh : KVShard) : option string :=
  match find_slot (slot_matches k) sh with
  | Some i => value <$> sh !! i
  | None => None
  end.

Definition shard_del (k : string) (sh : KVShard) : KVShard :=
  match find_slot (slot_matches k) sh with
  | Some i => alter deactivate i sh
  | None => sh
  end.

(** Number of active entries of a shard under key [k]. *)
Fixpoint active_count (k : string) (sh : KVShard) : nat :=
  match sh with
  | [] => 0
  | e :: rest => (if slot_matches k e then 1 else 0) + active_count k rest
  end.

(** The slot [set_key] would write: the first one, in the shard of [k],
    that is inactive or already holds [k]. *)
Definition target_slot (k : string) (kv : KVStore) : option nat :=
  match shard_at kv (get_shard_index k) with
  | Done sh => find_slot (slot_usable k) sh
  | Undefined _ => None
  end.

(** [kv_shards[i].store[j]] *)
Definition slot_at (kv : KVStore) (i j : nat) : option KVEntry :=
  match kv !! i with
  | Some sh => sh !! j
  | None => None
  end.

(** What a call for the key [k] may have done to the table: the
    router's index for [k] is a shard of the table, and outside one slot
    [j] of that shard every slot is as before. *)
Definition one_slot_written (k : string) (kv kv' : KVStore) : Prop :=
  (0 <= get_shard_index k)%Z /\
  is_Some (kv !! Z.to_nat (get_shard_index k)) /\
  exists j, forall i' j',
      i' <> Z.to_nat (get_shard_index k) \/ j' <> j ->
      slot_at kv' i' j' = slot_at kv i' j'.

Fixpoint replications (t : list event) : list (string * string) :=
  match t with
  | [] => []
  | EvReplicate k v _ _ :: rest => (k, v) :: replications rest
  | _ :: rest => replications rest
  end.

(** [p] holds of every byte of the string. *)
Fixpoint string_forall (p : ascii -> bool) (s : string) : bool :=
  match s with
  | EmptyString => true
  | String c rest => p c && string_forall p rest
  end.

(** ** Streams in the proofs *)


(** A stream that has met the end of its input: it delivers nothing more. *)
Definition ended (f : stream) : Prop := buffered f = "" /\ at_eof f = true.




(** ** Concrete inputs *)

(** Two replicas for [system]: a follower that answers, and [curl]
    failing to connect (exit status 7). *)
Definition sys_ok : string -> Z := fun _ => 0%Z.
Definition sys_fail : string -> Z := fun _ => 1792%Z.

(** Three-letter keys: the first two letters number the key, the third
    brings the byte sum to a multiple of 3.  They are pairwise distinct
    for [n <= 100] and all routed to shard 0. *)
Definition fill_key (n : nat) : string :=
  let x := 97 + n / 10 in
  let y := 97 + n mod 10 in
  let z := 97 + (3 - (x + y + 97) mod 3) mod 3 in
  String (ascii_of_nat x) (String (ascii_of_nat y) (String (ascii_of_nat z) EmptyString)).

Definition fill_ops : list op :=
  (fun n => OpSet (fill_key n) "v") <$> seq 0 MAX_KEYS.

(** Shard 0 filled with [MAX_KEYS] distinct keys. *)
Definition full_store : KVStore := Eval vm_compute in
  match run sys_ok fill_ops init_store with
  | Done kv => kv
  | Undefined _ => init_store
  end.

(** Keys ["a"] and ["d"] share shard 1; ["a"] is stored first and deleted. *)
Definition tombstone_ops : list op :=
  [OpSet "a" "1"; OpSet "d" "2"; OpDelete "a"].

Definition tombstone_store : KVStore := Eval vm_compute in
  match run sys_ok tombstone_ops init_store with
  | Done kv => kv
  | Undefined _ => init_store
  end.

Definition duplicate_store : KVStore := Eval vm_compute in
  match run sys_ok (tombstone_ops ++ [OpSet "d" "3"]) init_store with
  | Done kv => kv
  | Undefined _ => init_store
  end.

(** A key of [MAX_KEY_LENGTH] bytes and a value of [MAX_VALUE_LENGTH] bytes:
    one more than the buffers hold next to the terminator. *)
Definition long_key : string :=
  string_of_list_ascii (replicate MAX_KEY_LENGTH (ascii_of_nat 97)).
Definition long_value : string :=
  string_of_list_ascii (replicate MAX_VALUE_LENGTH (ascii_of_nat 98)).

(** A value of 200 bytes: copied into the [value] buffer of a slot it runs
    through the rest of the slot and over the key and the value of the
    slot that follows ([sizeof(KVEntry)] is 156). *)
Definition spilling_value : string :=
  string_of_list_ascii (replicate 200 (ascii_of_nat 98)).

(** The buffer of a stream on a regular file, with glibc on the usual
    file systems: [st_blksize] = 4096 bytes. *)
Definition stream_buffer : nat := 64 * 64.

(** Fifty keys of shard 0 with values of 99 bytes: a snapshot of 5200
    bytes, 104 to the line. *)
Definition wide_value : string :=
  string_of_list_ascii (replicate 99 (ascii_of_nat 98)).

Definition wide_ops : list op :=
  (fun n => OpSet (fill_key n) wide_value) <$> seq 0 50.

Definition wide_store : KVStore := Eval vm_compute in
  match run sys_ok wide_ops init_store with
  | Done kv => kv
  | Undefined _ => init_store
  end.

(** ** Snapshots *)

(** The (key, value) pairs of the active entries of a shard, in slot order. *)
Fixpoint actives (sh : KVShard) : list (string * string) :=
  match sh with
  | [] => []
  | e :: rest =>
      if is_active e then (key e, value e) :: actives rest else actives rest
  end.

(** A shard that holds the pairs of [l] in its first slots and is
    untouched behind them. *)
Definition compact (l : list (string * string)) : KVShard :=
  ((fun p => mkEntry p.1 p.2 true) <$> l)
    ++ replicate (MAX_KEYS - length l) empty_entry.






(** An active entry of shard [i] sits where its key is routed to and
    fits its buffers. *)
Definition entry_routed (i : nat) (e : KVEntry) : Prop :=
  is_active e = true ->
  get_shard_index (key e) = Z.of_nat i /\
  (String.length (key e) < MAX_KEY_LENGTH)%nat /\
  (String.length (value e) < MAX_VALUE_LENGTH)%nat.

Definition routed (kv : KVStore) : Prop :=
  forall i j e, slot_at kv i j = Some e -> entry_routed i e.

(** Not empty and free of white space: what [%s] reads back as one word. *)
Definition plain_word (w : string) : bool :=
  (0 <? String.length w)%nat && string_forall not_space w.



(** The table and the events of [set name Voyager] on the
    zero-initialised table. *)
Definition voyager_store : KVStore :=
  <[0%nat := <[0%nat := mkEntry "name" "Voyager" true]> init_shard]> init_store.

Definition voyager_trace (system : string -> Z) : list event :=
  [EvLog "SET" "name";
   EvPersist (persist_to_disk voyager_store);
   EvReplicate "name" "Voyager" (replicate_command "name" "Voyager")
     (system (replicate_command "name" "Voyager"))].

(** The list of pairs after [set(k, v)]: the value of [k] replaced in
    place, or the pair added behind the others. *)
Fixpoint upsert (k v : string) (l : list (string * string)) : list (string * string) :=
  match l with
  | [] => [(k, v)]
  | p :: rest => if String.eqb p.1 k then (k, v) :: rest else p :: upsert k v rest
  end.



(** ** Further definitions: the store *)

(** Runs in which nothing is deleted. *)
Definition is_delete (o : op) : bool :=
  match o with
  | OpDelete _ => true
  | _ => false
  end.

(** Tables whose shards hold pairs under distinct keys in their first
    slots and are untouched behind them. *)
Definition packed (kv : KVStore) : Prop :=
  forall i sh, kv !! i = Some sh ->
    exists l, sh = compact l /\ (length l <= MAX_KEYS)%nat /\ NoDup l.*1.

(** Number of active entries of a shard. *)
Fixpoint active_total (sh : KVShard) : nat :=
  match sh with
  | [] => 0
  | e :: rest => (if is_active e then 1 else 0) + active_total rest
  end.

(** ["a"] and ["d"] stored in shard 1, before ["a"] is deleted. *)
Definition two_keys_store : KVStore := Eval vm_compute in
  match run sys_ok [OpSet "a" "1"; OpSet "d" "2"] init_store with
  | Done kv => kv
  | Undefined _ => init_store
  end.

(** ** Sharpness value (first program of the file)

    [int** matrix] is the list of its [m] rows of [n] [int]s; [NULL] is
    [None].  The tables the functions allocate are lists of the same
    shape; a cell that [malloc] leaves unwritten is 0 here, and no cell
    is read before it is written.  A read outside a list gives 0: the
    theorems are about matrices of [m] rows of [n] [int]s, where no
    such read occurs. *)

(** [for (i = lo; i < lo + count; i++) s = body(s, i)] *)
Fixpoint for_loop {St : Type} (body : St -> nat -> St) (lo count : nat) (s : St) : St :=
  match count with
  | O => s
  | S c => for_loop body (S lo) c (body s lo)
  end.

(** [t[i][j]] and [t[i][j] = v] *)
Definition cell (t : list (list Z)) (i j : nat) : Z :=
  match t !! i with
  | Some row => default 0%Z (row !! j)
  | None => 0%Z
  end.

Definition set_cell (t : list (list Z)) (i j : nat) (v : Z) : list (list Z) :=
  alter (fun row => <[j := v]> row) i t.

(** [s[i]] *)
Definition vec (s : list Z) (i : nat) : Z := default 0%Z (s !! i).

(** [(a > b) ? a : b] and [(a < b) ? a : b] *)
Definition c_max (a b : Z) : Z := if (a >? b)%Z then a else b.
Definition c_min (a b : Z) : Z := if (a <? b)%Z then a else b.

(** The body of the inner loop of [findSharpnessValue]. *)
Definition sharpness_cell (matrix : list (list Z)) (m j : nat)
    (sharpness : list (list Z)) (i : nat) : list (list Z) :=
  let pathPrev := cell sharpness i (j - 1) in
  let pathPrev :=
    if (0 <? i)%nat then c_max pathPrev (cell sharpness (i - 1) (j - 1)) else pathPrev in
  let pathPrev :=
    if (i <? m - 1)%nat then c_max pathPrev (cell sharpness (i + 1) (j - 1)) else pathPrev in
  set_cell sharpness i j (c_min pathPrev (cell matrix i j)).

(** [maxSharpness = INT_MIN; for (i ...) if (read(i) > maxSharpness) maxSharpness = read(i)] *)
Definition column_max (read : nat -> Z) (m : nat) : Z :=
  for_loop (fun mx i => if (read i >? mx)%Z then read i else mx) 0 m INT_MIN.

Definition findSharpnessValue (matrix : option (list (list Z))) (m n : Z) : Z :=
  match matrix with
  | None => (-1)%Z
  | Some matrix =>
      if (m <? 1)%Z || (n <? 1)%Z then (-1)%Z
      else
        let m' := Z.to_nat m in
        let n' := Z.to_nat n in
        let sharpness := replicate m' (replicate n' 0%Z) in
        let sharpness :=
          for_loop (fun t i => set_cell t i 0 (cell matrix i 0)) 0 m' sharpness in
        let sharpness :=
          for_loop (fun t j => for_loop (sharpness_cell matrix m' j) 0 m' t)
                   1 (n' - 1) sharpness in
        column_max (fun i => cell sharpness i (n' - 1)) m'
  end.

(** The body of the inner loop of [findSharpnessValueOptimized]; the
    state is the array [sharpness] and the variable [prev]. *)
Definition optimized_cell (matrix : list (list Z)) (m j : nat)
    (st : list Z * Z) (i : nat) : list Z * Z :=
  let sharpness := st.1 in
  let prev := st.2 in
  let maxPath := vec sharpness i in
  let maxPath := if (0 <? i)%nat then c_max maxPath prev else maxPath in
  let maxPath :=
    if (i <? m - 1)%nat then c_max maxPath (vec sharpness (i + 1)) else maxPath in
  (<[i := c_min maxPath (cell matrix i j)]> sharpness, vec sharpness i).

(** One round of the outer loop: [prev = sharpness[0]], then the rows. *)
Definition optimized_column (matrix : list (list Z)) (m : nat)
    (sharpness : list Z) (j : nat) : list Z :=
  (for_loop (optimized_cell matrix m j) 0 m (sharpness, vec sharpness 0)).1.

Definition findSharpnessValueOptimized (matrix : option (list (list Z))) (m n : Z) : Z :=
  match matrix with
  | None => (-1)%Z
  | Some matrix =>
      if (m <? 1)%Z || (n <? 1)%Z then (-1)%Z
      else
        let m' := Z.to_nat m in
        let n' := Z.to_nat n in
        let sharpness := replicate m' 0%Z in
        let sharpness :=
          for_loop (fun s i => <[i := cell matrix i 0]> s) 0 m' sharpness in
        let sharpness := for_loop (optimized_column matrix m') 1 (n' - 1) sharpness in
        column_max (vec sharpness) m'
  end.

(** *** What the two functions compute *)

(** A matrix of [m] rows of [n] [int]s. *)
Definition int_matrix (matrix : list (list Z)) (m n : nat) : Prop :=
  length matrix = m /\
  Forall (fun row => length row = n /\
                     Forall (fun x => (INT_MIN <= x <= INT_MAX)%Z) row) matrix.

(** The largest of [p[i-1]], [p[i]], [p[i+1]] that exist among rows [0..m-1]. *)
Definition relaxed (p : nat -> Z) (m i : nat) : Z :=
  let a := p i in
  let a := if (0 <? i)%nat then c_max a (p (i - 1)) else a in
  if (i <? m - 1)%nat then c_max a (p (i + 1)) else a.

(** Sharpness of the best path that ends in row [i] of column [j]. *)
Fixpoint best (matrix : list (list Z)) (m j i : nat) : Z :=
  match j with
  | O => cell matrix i 0
  | S j' => c_min (relaxed (best matrix m j') m i) (cell matrix i j)
  end.

(** A path through the columns, listed from its last row back to its
    first: [r] is the row in column [length rest], the head of [rest]
    the row in the column before, and so on down to column 0.  Rows
    next to each other in the path differ by at most one. *)
Fixpoint path_ok (m r : nat) (rest : list nat) : Prop :=
  (r < m)%nat /\
  match rest with
  | [] => True
  | r' :: rest' => (r' <= r + 1)%nat /\ (r <= r' + 1)%nat /\ path_ok m r' rest'
  end.

(** The smallest entry on the path. *)
Fixpoint path_min (matrix : list (list Z)) (r : nat) (rest : list nat) : Z :=
  match rest with
  | [] => cell matrix r 0
  | r' :: rest' => Z.min (cell matrix r (length rest)) (path_min matrix r' rest')
  end.

(** The matrix of [main]. *)
Definition main_matrix : list (list Z) :=
  [[5; 7; 2]; [7; 5; 8]; [9; 1; 5]]%Z.

(** A table of [m] rows of [n] cells. *)
Definition table_shape (t : list (list Z)) (m n : nat) : Prop :=
  length t = m /\ Forall (fun row => length row = n) t.

(** * Verification *)

(** ** Router *)

Lemma N_of_ascii_bound (c : ascii) : (Z.of_N (N_of_ascii c) < 256)%Z.
Proof. pose proof (N_ascii_bounded c). lia. Qed.

Lemma char_to_int_range (c : ascii) : (-128 <= char_to_int c <= 127)%Z.
Proof.
  unfold char_to_int. pose proof (N_of_ascii_bound c).
  destruct (Z.ltb_spec (Z.of_N (N_of_ascii c)) 128); lia.
Qed.

Lemma uchar_to_int_range (c : ascii) : (0 <= uchar_to_int c <= 255)%Z.
Proof. unfold uchar_to_int. pose proof (N_of_ascii_bound c). lia. Qed.

Lemma char_to_int_ascii7 (c : ascii) :
  is_ascii7 c = true -> (0 <= char_to_int c <= 127)%Z.
Proof.
  unfold is_ascii7, char_to_int. intros H%N.ltb_lt.
  destruct (Z.ltb_spec (Z.of_N (N_of_ascii c)) 128); lia.
Qed.

Lemma rem_SHARD_COUNT_range (a : Z) :
  (- SHARD_COUNT < Z.rem a SHARD_COUNT < SHARD_COUNT)%Z.
Proof.
  unfold SHARD_COUNT. pose proof (Z.rem_bound_abs a 3 ltac:(lia)). lia.
Qed.

Lemma rem_SHARD_COUNT_nonneg (a : Z) :
  (0 <= a)%Z -> (0 <= Z.rem a SHARD_COUNT < SHARD_COUNT)%Z.
Proof. intros. unfold SHARD_COUNT. apply Z.rem_bound_pos; lia. Qed.

Lemma shard_loop_range conv (k : string) (hash : Z) :
  (- SHARD_COUNT < hash < SHARD_COUNT)%Z ->
  (- SHARD_COUNT < shard_loop conv k hash < SHARD_COUNT)%Z.
Proof.
  revert hash. induction k as [|c rest IH]; intros hash Hh; simpl; [lia|].
  apply IH, rem_SHARD_COUNT_range.
Qed.

Lemma shard_loop_nonneg conv (k : string) (hash : Z) :
  (forall c, 0 <= conv c)%Z ->
  (0 <= hash < SHARD_COUNT)%Z ->
  (0 <= shard_loop conv k hash < SHARD_COUNT)%Z.
Proof.
  intros Hc. revert hash. induction k as [|c rest IH]; intros hash Hh; simpl; [lia|].
  apply IH, rem_SHARD_COUNT_nonneg. specialize (Hc c). unfold SHARD_COUNT in *. lia.
Qed.

Lemma shard_loop_ascii7 (k : string) (hash : Z) :
  ascii7_key k = true ->
  (0 <= hash < SHARD_COUNT)%Z ->
  (0 <= shard_loop char_to_int k hash < SHARD_COUNT)%Z.
Proof.
  revert hash. induction k as [|c rest IH]; intros hash Hk Hh; simpl in *; [lia|].
  apply andb_true_iff in Hk as [Hc Hk].
  apply IH; [done|]. apply rem_SHARD_COUNT_nonneg.
  pose proof (char_to_int_ascii7 c Hc). unfold SHARD_COUNT in *. lia.
Qed.

Lemma shard_loop_fits_int (k : string) (hash : Z) :
  (- SHARD_COUNT < hash < SHARD_COUNT)%Z ->
  shard_loop_in_int char_to_int k hash.
Proof.
  revert hash. induction k as [|c rest IH]; intros hash Hh; simpl; [done|].
  split.
  - pose proof (char_to_int_range c). unfold SHARD_COUNT, INT_MIN, INT_MAX in *. lia.
  - apply IH, rem_SHARD_COUNT_range.
Qed.

(** The router never overflows [int] and stays strictly between
    [-SHARD_COUNT] and [SHARD_COUNT]. *)
Lemma get_shard_index_range (k : string) :
  (- SHARD_COUNT < get_shard_index k < SHARD_COUNT)%Z.
Proof. apply shard_loop_range. unfold SHARD_COUNT. lia. Qed.

Lemma get_shard_index_fits_int (k : string) :
  shard_loop_in_int char_to_int k 0.
Proof. apply shard_loop_fits_int. unfold SHARD_COUNT. lia. Qed.

(** On keys of 7-bit bytes the index is a shard of the table. *)
Lemma get_shard_index_ascii7 (k : string) :
  ascii7_key k = true -> (0 <= get_shard_index k < SHARD_COUNT)%Z.
Proof. intros. apply shard_loop_ascii7; [done|]. unfold SHARD_COUNT. lia. Qed.

(** Where plain [char] is unsigned the index is always a shard of the table. *)
Lemma get_shard_index_unsigned_range (k : string) :
  (0 <= get_shard_index_unsigned k < SHARD_COUNT)%Z.
Proof.
  apply shard_loop_nonneg; [|unfold SHARD_COUNT; lia].
  intros c. apply uchar_to_int_range.
Qed.

Lemma shard_loop_byte_sum (k : string) (hash : Z) :
  ascii7_key k = true -> (0 <= hash < SHARD_COUNT)%Z ->
  shard_loop char_to_int k hash = ((hash + byte_sum k) mod SHARD_COUNT)%Z.
Proof.
  revert hash. induction k as [|c rest IH]; intros hash Hk Hh; simpl in *.
  - rewrite Z.add_0_r. symmetry. by apply Z.mod_small.
  - apply andb_true_iff in Hk as [Hc Hk].
    pose proof (char_to_int_ascii7 c Hc) as Hr.
    assert (Hrem : Z.rem (hash * 31 + char_to_int c) SHARD_COUNT
                   = ((hash * 31 + char_to_int c) mod SHARD_COUNT)%Z).
    { apply Z.rem_mod_nonneg; unfold SHARD_COUNT in *; lia. }
    rewrite Hrem, IH; [|done|apply Z.mod_pos_bound; unfold SHARD_COUNT; lia].
    rewrite Zplus_mod_idemp_l. unfold SHARD_COUNT.
    replace (hash * 31 + char_to_int c + byte_sum rest)%Z
      with (hash + (char_to_int c + byte_sum rest) + hash * 10 * 3)%Z by lia.
    apply Z_mod_plus_full.
Qed.

(** The multiplier 31 is 1 modulo [SHARD_COUNT]: on 7-bit keys the index
    is the sum of the bytes modulo [SHARD_COUNT]. *)
Lemma get_shard_index_byte_sum (k : string) :
  ascii7_key k = true -> get_shard_index k = (byte_sum k mod SHARD_COUNT)%Z.
Proof.
  intros Hk. unfold get_shard_index.
  rewrite shard_loop_byte_sum; [done..|unfold SHARD_COUNT; lia].
Qed.

(** The router is a function of the bytes of the key alone. *)
Lemma get_shard_index_deterministic (k1 k2 : string) :
  k1 = k2 -> get_shard_index k1 = get_shard_index k2.
Proof. by intros ->. Qed.

(** ** Slot scans *)

Lemma find_slot_Some (p : KVEntry -> bool) (sh : KVShard) (i : nat) :
  find_slot p sh = Some i ->
  exists e, sh !! i = Some e /\ p e = true /\
            forall j e', (j < i)%nat -> sh !! j = Some e' -> p e' = false.
Proof.
  revert i. induction sh as [|e rest IH]; intros i H; simpl in H; [done|].
  destruct (p e) eqn:Hp.
  - injection H as <-. exists e. repeat split; [done|]. intros j e' Hj. lia.
  - destruct (find_slot p rest) as [i'|] eqn:Hf; simpl in H; [|done].
    injection H as <-. destruct (IH i' eq_refl) as (e0 & Hl & Hp0 & Hbefore).
    exists e0. repeat split; [done..|].
    intros [|j] e' Hj Hl'; simpl in Hl'; [congruence|].
    apply (Hbefore j); [lia|done].
Qed.

Lemma find_slot_None (p : KVEntry -> bool) (sh : KVShard) :
  find_slot p sh = None <-> Forall (fun e => p e = false) sh.
Proof.
  induction sh as [|e rest IH]; simpl; [by split; [constructor|]|].
  destruct (p e) eqn:Hp.
  - split; [done|]. intros H. inversion H; congruence.
  - destruct (find_slot p rest) eqn:Hf; simpl.
    + split; [done|]. intros H. inversion H as [|? ? ? Hr]. by apply IH in Hr.
    + split; [|done]. intros _. constructor; [done|]. by apply IH.
Qed.

Lemma find_slot_lt (p : KVEntry -> bool) (sh : KVShard) (i : nat) :
  find_slot p sh = Some i -> (i < length sh)%nat.
Proof.
  intros (e & Hl & _)%find_slot_Some. by apply lookup_lt_Some in Hl.
Qed.

(** ** One shard: recursive readings of the three scans *)

Lemma shard_set_nil k v : shard_set k v [] = None.
Proof. done. Qed.

Lemma shard_set_cons k v e rest :
  shard_set k v (e :: rest) =
  if slot_usable k e then Some (mkEntry k v true :: rest)
  else (e ::.) <$> shard_set k v rest.
Proof.
  unfold shard_set. simpl. destruct (slot_usable k e); [done|].
  by destruct (find_slot (slot_usable k) rest).
Qed.

Lemma shard_get_cons k e rest :
  shard_get k (e :: rest) =
  if slot_matches k e then Some (value e) else shard_get k rest.
Proof.
  unfold shard_get. simpl. destruct (slot_matches k e); [done|].
  by destruct (find_slot (slot_matches k) rest).
Qed.

Lemma shard_del_cons k e rest :
  shard_del k (e :: rest) =
  if slot_matches k e then deactivate e :: rest else e :: shard_del k rest.
Proof.
  unfold shard_del. simpl. destruct (slot_matches k e); [done|].
  by destruct (find_slot (slot_matches k) rest).
Qed.

Lemma slot_matches_entry k v : slot_matches k (mkEntry k v true) = true.
Proof. unfold slot_matches. simpl. apply String.eqb_refl. Qed.

Lemma slot_matches_other k k' v b :
  k <> k' -> slot_matches k' (mkEntry k v b) = false.
Proof.
  intros Hne. unfold slot_matches. simpl.
  apply andb_false_iff. right. by apply String.eqb_neq.
Qed.

Lemma slot_not_usable k e :
  slot_usable k e = false -> is_active e = true /\ key e <> k.
Proof.
  unfold slot_usable. intros [Ha Hk]%orb_false_iff.
  apply negb_false_iff in Ha. by apply String.eqb_neq in Hk.
Qed.

Lemma slot_matches_usable k e : slot_matches k e = true -> slot_usable k e = true.
Proof.
  unfold slot_matches, slot_usable. intros [_ ->]%andb_true_iff. apply orb_true_r.
Qed.

Lemma slot_usable_other k k' e :
  k <> k' -> slot_usable k e = true -> slot_matches k' e = false.
Proof.
  unfold slot_usable, slot_matches. intros Hne [Ha|Hk]%orb_true_iff.
  - apply negb_true_iff in Ha. by rewrite Ha.
  - apply String.eqb_eq in Hk. apply andb_false_iff. right.
    apply String.eqb_neq. congruence.
Qed.

Lemma slot_matches_deactivate k e : slot_matches k (deactivate e) = false.
Proof. done. Qed.

Lemma slot_usable_deactivate k e : slot_usable k (deactivate e) = true.
Proof. done. Qed.

(** A stored pair is read back from the shard. *)
Lemma shard_get_set k v sh sh' :
  shard_set k v sh = Some sh' -> shard_get k sh' = Some v.
Proof.
  revert sh'. induction sh as [|e rest IH]; intros sh' H; [done|].
  rewrite shard_set_cons in H. destruct (slot_usable k e) eqn:Hu.
  - injection H as <-. by rewrite shard_get_cons, slot_matches_entry.
  - destruct (shard_set k v rest) as [r'|]; simpl in H; [|done].
    injection H as <-. rewrite shard_get_cons.
    apply slot_not_usable in Hu as [_ Hk].
    assert (slot_matches k e = false) as ->.
    { unfold slot_matches. apply andb_false_iff. right. by apply String.eqb_neq. }
    by apply IH.
Qed.

(** Storing under [k] does not change what another key reads. *)
Lemma shard_get_set_other k k' v sh sh' :
  k <> k' -> shard_set k v sh = Some sh' -> shard_get k' sh' = shard_get k' sh.
Proof.
  intros Hne. revert sh'. induction sh as [|e rest IH]; intros sh' H; [done|].
  rewrite shard_set_cons in H. destruct (slot_usable k e) eqn:Hu.
  - injection H as <-. rewrite !shard_get_cons.
    by rewrite slot_matches_other, (slot_usable_other k k' e).
  - destruct (shard_set k v rest) as [r'|]; simpl in H; [|done].
    injection H as <-. rewrite !shard_get_cons.
    destruct (slot_matches k' e); [done|]. by apply IH.
Qed.

(** No usable slot: every entry is active under another key. *)
Lemma shard_set_None k v sh :
  shard_set k v sh = None <->
  Forall (fun e => is_active e = true /\ key e <> k) sh.
Proof.
  unfold shard_set. destruct (find_slot (slot_usable k) sh) eqn:Hf.
  - split; [done|]. intros HF.
    assert (find_slot (slot_usable k) sh = None); [|congruence].
    apply find_slot_None. eapply Forall_impl; [done|].
    intros e [Ha Hk]. unfold slot_usable. rewrite Ha. simpl. by apply String.eqb_neq.
  - split; [|done]. intros _. apply find_slot_None in Hf.
    eapply Forall_impl; [done|]. intros e. apply slot_not_usable.
Qed.

Lemma shard_get_None k sh :
  Forall (fun e => slot_matches k e = false) sh -> shard_get k sh = None.
Proof. intros H. unfold shard_get. apply find_slot_None in H. by rewrite H. Qed.

Lemma shard_set_None_get k v sh :
  shard_set k v sh = None -> shard_get k sh = None.
Proof.
  intros H%shard_set_None. apply shard_get_None.
  eapply Forall_impl; [done|]. intros e [_ Hk]. unfold slot_matches.
  apply andb_false_iff. right. by apply String.eqb_neq.
Qed.

Lemma shard_set_length k v sh sh' :
  shard_set k v sh = Some sh' -> length sh' = length sh.
Proof.
  unfold shard_set. destruct (find_slot (slot_usable k) sh); [|done].
  intros [= <-]. apply length_insert.
Qed.


Lemma active_count_0 k sh : active_count k sh = 0%nat -> shard_get k sh = None.
Proof.
  induction sh as [|e rest IH]; intros H; [done|]. simpl in H.
  rewrite shard_get_cons. destruct (slot_matches k e); [lia|]. by apply IH.
Qed.

(** After a delete the key is absent, when it had at most one active entry. *)
Lemma shard_get_del k sh :
  (active_count k sh <= 1)%nat -> shard_get k (shard_del k sh) = None.
Proof.
  induction sh as [|e rest IH]; intros H; [done|]. simpl in H.
  rewrite shard_del_cons. destruct (slot_matches k e) eqn:Hm.
  - rewrite shard_get_cons, slot_matches_deactivate. apply active_count_0. lia.
  - rewrite shard_get_cons, Hm. apply IH. lia.
Qed.

Lemma shard_get_del_other k k' sh :
  k <> k' -> shard_get k' (shard_del k sh) = shard_get k' sh.
Proof.
  intros Hne. induction sh as [|e rest IH]; [done|].
  rewrite shard_del_cons. destruct (slot_matches k e) eqn:Hm.
  - rewrite !shard_get_cons, slot_matches_deactivate.
    by rewrite (slot_usable_other k k' e Hne (slot_matches_usable _ _ Hm)).
  - rewrite !shard_get_cons. by rewrite IH.
Qed.

(** A delete keeps the slots [set] may use, and frees one when the key
    was present. *)
Lemma shard_set_del_room k sh :
  is_Some (find_slot (slot_usable k) sh) ->
  is_Some (find_slot (slot_usable k) (shard_del k sh)).
Proof.
  induction sh as [|e rest IH]; [done|]. rewrite shard_del_cons.
  destruct (slot_matches k e) eqn:Hm; simpl.
  - intros _. eauto.
  - destruct (slot_usable k e); [eauto|].
    intros H. destruct (find_slot (slot_usable k) rest) eqn:Hf; simpl in H.
    + destruct IH as [i' ->]; [eauto|]. simpl. eauto.
    + by destruct H.
Qed.

(** ** The shard table *)

Lemma shard_at_Done kv z sh :
  shard_at kv z = Done sh <-> (0 <= z)%Z /\ kv !! Z.to_nat z = Some sh.
Proof.
  unfold shard_at. destruct (Z.ltb_spec z 0).
  - split; [done|]. lia.
  - destruct (kv !! Z.to_nat z) eqn:Hl.
    + split; [intros [= ->]; by split | intros [_ [= ->]]; done].
    + split; [done | intros [_ ?]; done].
Qed.

Lemma shard_at_insert_eq kv z sh sh' :
  shard_at kv z = Done sh -> shard_at (<[Z.to_nat z := sh']> kv) z = Done sh'.
Proof.
  intros [Hz Hl]%shard_at_Done. apply shard_at_Done. split; [done|].
  apply list_lookup_insert_eq. by apply lookup_lt_Some in Hl.
Qed.

Lemma shard_at_insert_ne kv z z' sh sh' :
  shard_at kv z = Done sh -> z <> z' ->
  shard_at (<[Z.to_nat z := sh']> kv) z' = shard_at kv z'.
Proof.
  intros [Hz _]%shard_at_Done Hne. unfold shard_at.
  destruct (Z.ltb_spec z' 0); [done|].
  rewrite list_lookup_insert_ne; [done|lia].
Qed.

Lemma set_key_shard sys k v kv :
  set_key sys k v kv =
  match shard_at kv (get_shard_index k) with
  | Undefined why => Undefined why
  | Done sh =>
      match shard_set k v sh with
      | Some sh' =>
          if (MAX_KEY_LENGTH <=? String.length k)%nat then Undefined KeyBufferOverrun
          else if (MAX_VALUE_LENGTH <=? String.length v)%nat
               then Undefined ValueBufferOverrun
          else
            let kv' := <[Z.to_nat (get_shard_index k) := sh']> kv in
            Done (kv', EvLog "SET" k :: EvPersist (persist_to_disk kv')
                         :: replicate_to_followers sys k v)
      | None => Done (kv, [])
      end
  end.
Proof.
  unfold set_key, shard_set. destruct (shard_at kv (get_shard_index k)); [|done].
  simpl. by destruct (find_slot (slot_usable k) a).
Qed.

Lemma get_key_shard k kv :
  get_key k kv =
  match shard_at kv (get_shard_index k) with
  | Undefined why => Undefined why
  | Done sh => Done (shard_get k sh)
  end.
Proof.
  unfold get_key, shard_get. destruct (shard_at kv (get_shard_index k)); [|done].
  simpl. by destruct (find_slot (slot_matches k) a).
Qed.

Lemma delete_key_shard k kv :
  delete_key k kv =
  match shard_at kv (get_shard_index k) with
  | Undefined why => Undefined why
  | Done sh =>
      match find_slot (slot_matches k) sh with
      | Some _ => Done (<[Z.to_nat (get_shard_index k) := shard_del k sh]> kv,
                        [EvPrintf ("Deleted key: " +:+ k +:+ newline)])
      | None => Done (kv, [])
      end
  end.
Proof.
  unfold delete_key, shard_del. destruct (shard_at kv (get_shard_index k)); [|done].
  simpl. by destruct (find_slot (slot_matches k) a).
Qed.

(** The state after a delete, whether or not the key was found. *)
Lemma delete_key_state k kv kv' t :
  delete_key k kv = Done (kv', t) ->
  exists sh, shard_at kv (get_shard_index k) = Done sh /\
             kv' = <[Z.to_nat (get_shard_index k) := shard_del k sh]> kv.
Proof.
  rewrite delete_key_shard.
  destruct (shard_at kv (get_shard_index k)) as [sh|] eqn:Hs; [|done].
  intros H. exists sh. split; [done|].
  destruct (find_slot (slot_matches k) sh) eqn:Hf; injection H as <- <-; [done|].
  apply shard_at_Done in Hs as [_ Hl]. symmetry. apply list_insert_id.
  unfold shard_del. by rewrite Hf.
Qed.

Lemma delete_key_defined k kv sh :
  shard_at kv (get_shard_index k) = Done sh ->
  exists t, delete_key k kv =
            Done (<[Z.to_nat (get_shard_index k) := shard_del k sh]> kv, t).
Proof.
  intros Hs. rewrite delete_key_shard, Hs.
  destruct (find_slot (slot_matches k) sh) eqn:Hf; [eauto|].
  exists []. f_equal. f_equal. apply shard_at_Done in Hs as [_ Hl].
  symmetry. apply list_insert_id. unfold shard_del. by rewrite Hf.
Qed.

(** ** Well-formed tables *)

Lemma wf_init_store : wf_store init_store.
Proof.
  split; [done|]. unfold init_store. apply Forall_replicate.
  unfold wf_shard, init_shard. apply length_replicate.
Qed.

Lemma wf_store_insert kv i sh :
  wf_store kv -> wf_shard sh -> wf_store (<[i := sh]> kv).
Proof.
  intros [Hlen Hall] Hsh. split; [by rewrite length_insert|].
  by apply Forall_insert.
Qed.

Lemma wf_store_shard kv z sh :
  wf_store kv -> shard_at kv z = Done sh -> wf_shard sh.
Proof.
  intros [_ Hall] [_ Hl]%shard_at_Done.
  eapply Forall_lookup_1 in Hall; done.
Qed.

Lemma set_key_wf sys k v kv kv' t :
  wf_store kv -> set_key sys k v kv = Done (kv', t) -> wf_store kv'.
Proof.
  intros Hwf. rewrite set_key_shard.
  destruct (shard_at kv (get_shard_index k)) as [sh|] eqn:Hs; [|done].
  destruct (shard_set k v sh) as [sh'|] eqn:Hset; [|by intros [= <- <-]].
  destruct (MAX_KEY_LENGTH <=? String.length k)%nat; [done|].
  destruct (MAX_VALUE_LENGTH <=? String.length v)%nat; [done|].
  intros [= <- <-]. apply wf_store_insert; [done|].
  unfold wf_shard. rewrite (shard_set_length _ _ _ _ Hset).
  by eapply wf_store_shard.
Qed.






(** ** Reading after writing *)

Lemma get_after_set sys k v kv kv' t :
  set_key sys k v kv = Done (kv', t) ->
  get_key k kv' = Done (if t is [] then None else Some v).
Proof.
  rewrite set_key_shard, get_key_shard.
  destruct (shard_at kv (get_shard_index k)) as [sh|] eqn:Hs; [|done].
  destruct (shard_set k v sh) as [sh'|] eqn:Hset.
  - destruct (MAX_KEY_LENGTH <=? String.length k)%nat; [done|].
    destruct (MAX_VALUE_LENGTH <=? String.length v)%nat; [done|].
    intros [= <- <-]. rewrite (shard_at_insert_eq _ _ _ _ Hs).
    by rewrite (shard_get_set _ _ _ _ Hset).
  - intros [= <- <-]. rewrite Hs. by rewrite (shard_set_None_get _ _ _ Hset).
Qed.

Lemma set_key_defined sys k v kv :
  (String.length k < MAX_KEY_LENGTH)%nat ->
  (String.length v < MAX_VALUE_LENGTH)%nat ->
  is_Some (target_slot k kv) ->
  exists kv' e t, set_key sys k v kv = Done (kv', e :: t).
Proof.
  intros Hk Hv [i Hi]. unfold target_slot in Hi. rewrite set_key_shard.
  destruct (shard_at kv (get_shard_index k)) as [sh|]; [|done].
  unfold shard_set. rewrite Hi.
  destruct (Nat.leb_spec MAX_KEY_LENGTH (String.length k)); [lia|].
  destruct (Nat.leb_spec MAX_VALUE_LENGTH (String.length v)); [lia|].
  eauto.
Qed.

(** Within the bounds of the table and of the buffers every call returns. *)
Lemma set_key_returns sys k v kv sh :
  shard_at kv (get_shard_index k) = Done sh ->
  (String.length k < MAX_KEY_LENGTH)%nat ->
  (String.length v < MAX_VALUE_LENGTH)%nat ->
  exists kv' t, set_key sys k v kv = Done (kv', t).
Proof.
  intros Hs Hk Hv. rewrite set_key_shard, Hs.
  destruct (shard_set k v sh); [|eauto].
  destruct (Nat.leb_spec MAX_KEY_LENGTH (String.length k)); [lia|].
  destruct (Nat.leb_spec MAX_VALUE_LENGTH (String.length v)); [lia|].
  eauto.
Qed.

Lemma set_key_then_get sys k v kv :
  (String.length k < MAX_KEY_LENGTH)%nat ->
  (String.length v < MAX_VALUE_LENGTH)%nat ->
  is_Some (target_slot k kv) ->
  exists kv' t, set_key sys k v kv = Done (kv', t) /\
                get_key k kv' = Done (Some v).
Proof.
  intros Hk Hv Hroom.
  destruct (set_key_defined sys k v kv Hk Hv Hroom) as (kv' & e & t & Hset).
  exists kv', (e :: t). split; [done|].
  by rewrite (get_after_set _ _ _ _ _ _ Hset).
Qed.

Lemma get_after_set_other sys k k' v kv kv' t :
  k <> k' -> set_key sys k v kv = Done (kv', t) -> get_key k' kv' = get_key k' kv.
Proof.
  intros Hne. rewrite set_key_shard, !get_key_shard.
  destruct (shard_at kv (get_shard_index k)) as [sh|] eqn:Hs; [|done].
  destruct (shard_set k v sh) as [sh'|] eqn:Hset; [|by intros [= <- <-]].
  destruct (MAX_KEY_LENGTH <=? String.length k)%nat; [done|].
  destruct (MAX_VALUE_LENGTH <=? String.length v)%nat; [done|].
  intros [= <- <-].
  destruct (decide (get_shard_index k = get_shard_index k')) as [Heq|Hidx].
  - rewrite <- Heq, (shard_at_insert_eq _ _ _ _ Hs), Hs.
    by rewrite (shard_get_set_other _ _ _ _ _ Hne Hset).
  - by rewrite (shard_at_insert_ne _ _ _ _ _ Hs Hidx).
Qed.

Lemma get_after_delete_other k k' kv kv' t :
  k <> k' -> delete_key k kv = Done (kv', t) -> get_key k' kv' = get_key k' kv.
Proof.
  intros Hne (sh & Hs & ->)%delete_key_state. rewrite !get_key_shard.
  destruct (decide (get_shard_index k = get_shard_index k')) as [Heq|Hidx].
  - rewrite <- Heq, (shard_at_insert_eq _ _ _ _ Hs), Hs.
    by rewrite shard_get_del_other.
  - by rewrite (shard_at_insert_ne _ _ _ _ _ Hs Hidx).
Qed.

(** ** Frame *)

Lemma slot_at_insert_insert kv n sh i e i' j' :
  kv !! n = Some sh ->
  i' <> n \/ j' <> i ->
  slot_at (<[n := <[i := e]> sh]> kv) i' j' = slot_at kv i' j'.
Proof.
  intros Hl Hne. unfold slot_at. destruct (decide (i' = n)) as [->|Hn].
  - rewrite list_lookup_insert_eq by (by apply lookup_lt_Some in Hl).
    rewrite Hl. apply list_lookup_insert_ne. intros ->. by destruct Hne.
  - by rewrite list_lookup_insert_ne.
Qed.

Lemma slot_at_insert_alter kv n sh i f i' j' :
  kv !! n = Some sh ->
  i' <> n \/ j' <> i ->
  slot_at (<[n := alter f i sh]> kv) i' j' = slot_at kv i' j'.
Proof.
  intros Hl Hne. unfold slot_at. destruct (decide (i' = n)) as [->|Hn].
  - rewrite list_lookup_insert_eq by (by apply lookup_lt_Some in Hl).
    rewrite Hl. apply list_lookup_alter_ne. intros ->. by destruct Hne.
  - by rewrite list_lookup_insert_ne.
Qed.

(** ** Replication *)

(** ** REST handler *)

Lemma strip_prefix_prefix p s r :
  strip_prefix p s = Some r -> String.prefix p s = true.
Proof.
  revert s. induction p as [|a p IH]; intros [|b s]; simpl; try done.
  destruct (Ascii.eqb_spec a b) as [->|]; [|done].
  intros H. destruct (ascii_dec b b); [by apply IH|done].
Qed.

Lemma sscanf_set_prefix url k v :
  sscanf_set url = Some (k, v) -> String.prefix "/set/" url = true.
Proof.
  unfold sscanf_set. destruct (strip_prefix "/set/" url) eqn:Hp; [|done].
  intros _. by eapply strip_prefix_prefix.
Qed.

(** The POST branch: whatever [set_key] did, the reply is 200. *)
Lemma http_handler_post sys url k v kv :
  sscanf_set url = Some (k, v) ->
  http_handler sys "POST" url kv =
  match set_key sys k v kv with
  | Done r =>
      Done (mkReply MHD_HTTP_OK
              (response ("{" +:+ dquote +:+ "message" +:+ dquote +:+ ": "
                         +:+ dquote +:+ "Key '" +:+ k +:+ "' set successfully"
                         +:+ dquote +:+ "}")), r.1, r.2)
  | Undefined why => Undefined why
  end.
Proof.
  intros Hs. unfold http_handler.
  rewrite (sscanf_set_prefix _ _ _ Hs), Hs.
  change (String.eqb "POST" "GET") with false.
  change (String.eqb "POST" "POST") with true.
  cbn [andb]. by destruct (set_key sys k v kv).
Qed.

Lemma http_handler_post_invalid sys url kv :
  String.prefix "/set/" url = true ->
  sscanf_set url = None ->
  http_handler sys "POST" url kv =
  Done (mkReply MHD_HTTP_BAD_REQUEST
          (response ("{" +:+ dquote +:+ "error" +:+ dquote +:+ ": "
                     +:+ dquote +:+ "Invalid key-value format" +:+ dquote +:+ "}")),
        kv, []).
Proof.
  intros Hp Hs. unfold http_handler. rewrite Hp, Hs.
  change (String.eqb "POST" "GET") with false.
  change (String.eqb "POST" "POST") with true.
  done.
Qed.

(** ** Conversions of [sscanf] *)

Lemma append_cons a s t : String a s +:+ t = String a (s +:+ t).
Proof. done. Qed.

Lemma append_nil s : "" +:+ s = s.
Proof. done. Qed.

Lemma append_assoc s t u : (s +:+ t) +:+ u = s +:+ t +:+ u.
Proof. induction s as [|a s IH]; [done|]. by rewrite !append_cons, IH. Qed.

Lemma append_nil_r s : s +:+ "" = s.
Proof. induction s as [|a s IH]; [done|]. by rewrite append_cons, IH. Qed.

Lemma strip_prefix_app p s : strip_prefix p (p +:+ s) = Some s.
Proof.
  induction p as [|a p IH]; [by destruct s|].
  rewrite append_cons. simpl. by rewrite Ascii.eqb_refl.
Qed.

Lemma scan_while_length n p s w r :
  scan_while n p s = (w, r) -> (String.length w <= n)%nat.
Proof.
  revert s w r. induction n as [|n IH]; intros s w r; simpl.
  - destruct s; intros [= <- _]; simpl; lia.
  - destruct s as [|c s]; [intros [= <- _]; simpl; lia|].
    destruct (p c); [|intros [= <- _]; simpl; lia].
    destruct (scan_while n p s) as [w' r'] eqn:Hs.
    intros [= <- _]. simpl. apply IH in Hs. lia.
Qed.

(** A run longer than the width: the conversion stops after [n] bytes,
    in front of a byte of the run. *)
Lemma scan_while_long n p k rest :
  string_forall p k = true -> (n < String.length k)%nat ->
  exists c r, scan_while n p (k +:+ rest) = (substring 0 n k, String c r) /\
              p c = true.
Proof.
  revert k. induction n as [|n IH]; intros [|a k] Hk Hn; simpl in *; try lia.
  - apply andb_true_iff in Hk as [Ha _]. rewrite append_cons. eauto.
  - apply andb_true_iff in Hk as [Ha Hk]. rewrite append_cons, Ha.
    destruct (IH k Hk) as (c & r & -> & Hc); [lia|]. eauto.
Qed.

(** A run that fits the width and is followed by a byte outside [p]. *)
Lemma scan_while_stop n p k c r :
  string_forall p k = true -> (String.length k <= n)%nat -> p c = false ->
  scan_while n p (k +:+ String c r) = (k, String c r).
Proof.
  revert k. induction n as [|n IH]; intros [|a k] Hk Hn Hc; simpl in *; try lia.
  - done.
  - rewrite append_nil. by rewrite Hc.
  - apply andb_true_iff in Hk as [Ha Hk]. rewrite append_cons, Ha.
    rewrite IH; [done..|lia|done].
Qed.

Lemma substring_nonempty n a k :
  substring 0 (S n) (String a k) = String a (substring 0 n k).
Proof. done. Qed.

Lemma sscanf_set_bounds url k v :
  sscanf_set url = Some (k, v) ->
  (String.length k < MAX_KEY_LENGTH)%nat /\
  (String.length v < MAX_VALUE_LENGTH)%nat.
Proof.
  unfold sscanf_set. destruct (strip_prefix "/set/" url) as [rest|]; [|done].
  cbn [mbind option_bind].
  destruct (scan_while 49 _ rest) as [k' rest'] eqn:Hk.
  destruct k' as [|a k']; [done|]. destruct rest' as [|c rest']; [done|].
  destruct (Ascii.eqb c slash); [|done].
  destruct (scan_while 99 _ (skip_space rest')) as [v' r'] eqn:Hv.
  destruct v' as [|b v']; [done|]. intros [= <- <-].
  apply scan_while_length in Hk, Hv. unfold MAX_KEY_LENGTH, MAX_VALUE_LENGTH. lia.
Qed.

(** A key part of 50 bytes or more: the literal [/] of the format does
    not match and [sscanf] returns 1. *)
Lemma sscanf_set_long_key k rest :
  string_forall not_slash k = true ->
  (MAX_KEY_LENGTH <= String.length k)%nat ->
  sscanf_set ("/set/" +:+ k +:+ rest) = None.
Proof.
  intros Hk Hlen. unfold sscanf_set. rewrite strip_prefix_app.
  cbn [mbind option_bind].
  destruct (scan_while_long 49 not_slash k rest Hk) as (c & r & Hs & Hc).
  { unfold MAX_KEY_LENGTH in Hlen. lia. }
  rewrite Hs.
  destruct k as [|a k]; [simpl in Hlen; unfold MAX_KEY_LENGTH in Hlen; lia|].
  rewrite substring_nonempty.
  unfold not_slash in Hc. apply negb_true_iff in Hc. by rewrite Hc.
Qed.

(** A value part of 100 bytes or more is cut to its first 99 bytes. *)
Lemma sscanf_set_long_value k v rest :
  string_forall not_slash k = true ->
  (0 < String.length k < MAX_KEY_LENGTH)%nat ->
  string_forall not_space v = true ->
  (MAX_VALUE_LENGTH <= String.length v)%nat ->
  sscanf_set ("/set/" +:+ k +:+ "/" +:+ v +:+ rest) = Some (k, substring 0 99 v).
Proof.
  intros Hk Hklen Hv Hvlen. unfold sscanf_set. rewrite strip_prefix_app.
  cbn [mbind option_bind].
  change ("/" +:+ v +:+ rest) with (String slash (v +:+ rest)).
  pose proof (scan_while_stop 49 not_slash k slash (v +:+ rest) Hk) as Hs.
  rewrite Hs;
    [|unfold MAX_KEY_LENGTH in *; lia|by unfold not_slash; rewrite Ascii.eqb_refl].
  destruct k as [|a k]; [simpl in Hklen; lia|].
  rewrite Ascii.eqb_refl.
  destruct v as [|b v]; [simpl in Hvlen; unfold MAX_VALUE_LENGTH in Hvlen; lia|].
  pose proof Hv as Hv'. simpl in Hv'. apply andb_true_iff in Hv' as [Hb _].
  unfold not_space in Hb. apply negb_true_iff in Hb.
  rewrite append_cons. cbn [skip_space]. rewrite Hb. rewrite <- append_cons.
  destruct (scan_while_long 99 not_space (String b v) rest Hv) as (c & r & Hs' & _).
  { unfold MAX_VALUE_LENGTH in Hvlen. lia. }
  rewrite Hs'. by rewrite substring_nonempty.
Qed.

Lemma length_append s t : String.length (s +:+ t) = (String.length s + String.length t)%nat.
Proof. induction s as [|a s IH]; [done|]. rewrite append_cons. simpl. by rewrite IH. Qed.

Lemma substring_length_le n s : (String.length (substring 0 n s) <= n)%nat.
Proof.
  revert s. induction n as [|n IH]; intros [|a s]; simpl; try lia.
  specialize (IH s). lia.
Qed.

Lemma substring_all n s : (String.length s <= n)%nat -> substring 0 n s = s.
Proof.
  revert s. induction n as [|n IH]; intros [|a s]; simpl; try done; try lia.
  intros H. rewrite IH; [done|lia].
Qed.

Lemma shard_at_wf kv z :
  wf_store kv -> (0 <= z < SHARD_COUNT)%Z -> exists sh, shard_at kv z = Done sh.
Proof.
  intros [Hlen _] Hz.
  destruct (lookup_lt_is_Some_2 kv (Z.to_nat z)) as [sh Hsh]; [lia|].
  exists sh. apply shard_at_Done. split; [lia|done].
Qed.


(** ** Snapshots: the writer *)







(** ** Snapshots: the reader *)

Lemma append_not_nil_r s a t : s +:+ String a t <> "".
Proof. by destruct s. Qed.




(** ** Snapshots: replaying the pairs of one shard *)

Lemma compact_nil : compact [] = init_shard.
Proof. done. Qed.

Lemma compact_length l :
  (length l <= MAX_KEYS)%nat -> length (compact l) = MAX_KEYS.
Proof.
  intros H. unfold compact. rewrite length_app, length_fmap, length_replicate. lia.
Qed.










(** ** Routing invariant *)

Lemma routed_init_store : routed init_store.
Proof.
  intros i j e Hslot Ha. unfold slot_at, init_store in Hslot.
  destruct (replicate _ init_shard !! i) as [sh|] eqn:Hl; [|done].
  apply lookup_replicate in Hl as [-> _].
  apply lookup_replicate in Hslot as [-> _]. done.
Qed.

Lemma slot_at_insert_insert_eq kv n sh i e e' :
  kv !! n = Some sh ->
  slot_at (<[n := <[i := e]> sh]> kv) n i = Some e' -> e' = e.
Proof.
  intros Hl. unfold slot_at.
  rewrite list_lookup_insert_eq by (by apply lookup_lt_Some in Hl).
  intros Hi. pose proof (lookup_lt_Some _ _ _ Hi) as Hlt.
  rewrite length_insert in Hlt. rewrite list_lookup_insert_eq in Hi by done.
  congruence.
Qed.

Lemma slot_at_insert_alter_eq kv n sh i f e' :
  kv !! n = Some sh ->
  slot_at (<[n := alter f i sh]> kv) n i = Some e' ->
  exists e, sh !! i = Some e /\ e' = f e.
Proof.
  intros Hl. unfold slot_at.
  rewrite list_lookup_insert_eq by (by apply lookup_lt_Some in Hl).
  rewrite list_lookup_alter_eq. destruct (sh !! i) as [e|]; [|done].
  intros [= <-]. eauto.
Qed.

Lemma set_key_routed sys k v kv kv' t :
  routed kv -> set_key sys k v kv = Done (kv', t) -> routed kv'.
Proof.
  intros Hr. unfold set_key.
  destruct (shard_at kv (get_shard_index k)) as [sh|] eqn:Hs; [|done].
  apply shard_at_Done in Hs as [Hz Hl]. cbn [mbind outcome_bind].
  destruct (find_slot (slot_usable k) sh) as [i|]; [|by intros [= <- <-]].
  destruct (Nat.leb_spec MAX_KEY_LENGTH (String.length k)); [done|].
  destruct (Nat.leb_spec MAX_VALUE_LENGTH (String.length v)); [done|].
  intros H1. injection H1 as <- <-. intros i' j' e Hslot.
  destruct (decide (i' = Z.to_nat (get_shard_index k) /\ j' = i)) as [[-> ->]|Hne].
  - apply (slot_at_insert_insert_eq _ _ _ _ _ _ Hl) in Hslot as ->.
    intros _. simpl. repeat split; [lia|done..].
  - rewrite slot_at_insert_insert in Hslot; [by eapply Hr|done|].
    destruct (decide (i' = Z.to_nat (get_shard_index k))); [right|left]; [|done].
    intros ->. by apply Hne.
Qed.

Lemma delete_key_routed k kv kv' t :
  routed kv -> delete_key k kv = Done (kv', t) -> routed kv'.
Proof.
  intros Hr. unfold delete_key.
  destruct (shard_at kv (get_shard_index k)) as [sh|] eqn:Hs; [|done].
  apply shard_at_Done in Hs as [Hz Hl]. cbn [mbind outcome_bind].
  destruct (find_slot (slot_matches k) sh) as [i|]; [|by intros [= <- <-]].
  intros H1. injection H1 as <- <-. intros i' j' e Hslot.
  destruct (decide (i' = Z.to_nat (get_shard_index k) /\ j' = i)) as [[-> ->]|Hne].
  - apply (slot_at_insert_alter_eq _ _ _ _ _ _ Hl) in Hslot as (e0 & _ & ->).
    by intros Ha.
  - rewrite slot_at_insert_alter in Hslot; [by eapply Hr|done|].
    destruct (decide (i' = Z.to_nat (get_shard_index k))); [right|left]; [|done].
    intros ->. by apply Hne.
Qed.

Lemma load_words_routed sys words buf kv kv' t :
  routed kv -> load_words sys words buf kv = Done (kv', t) -> routed kv'.
Proof.
  revert buf kv kv' t.
  induction words as [words IH] using (induction_ltof1 _ (@length string)).
  unfold ltof in IH. intros buf kv kv' t Hr.
  destruct words as [|k [|v rest]]; cbn [load_words].
  - by intros [= <- <-].
  - destruct (MAX_KEY_LENGTH <=? String.length k)%nat; [done|].
    destruct buf as [v|]; [|done]. by apply set_key_routed.
  - destruct (MAX_KEY_LENGTH <=? String.length k)%nat; [done|].
    destruct (MAX_VALUE_LENGTH <=? String.length v)%nat; [done|].
    destruct (set_key sys k v kv) as [[kv1 t1]|] eqn:Hset; [|done].
    cbn [mbind outcome_bind fst snd].
    destruct (load_words sys rest (Some v) kv1) as [[kv2 t2]|] eqn:Hload; [|done].
    cbn [mbind outcome_bind fst snd]. intros [= <- <-].
    eapply (IH rest); [simpl; lia| |done]. by eapply set_key_routed.
Qed.

Lemma step_routed sys o kv kv' :
  routed kv -> step sys o kv = Done kv' -> routed kv'.
Proof.
  intros Hr. destruct o as [k v|k|k|words]; simpl.
  - destruct (set_key sys k v kv) as [[kv1 t1]|] eqn:Hset; [|done].
    simpl. intros [= <-]. by eapply set_key_routed.
  - destruct (get_key k kv); [|done]. simpl. by intros [= <-].
  - destruct (delete_key k kv) as [[kv1 t1]|] eqn:Hdel; [|done].
    simpl. intros [= <-]. by eapply delete_key_routed.
  - destruct (load_words sys words None kv)
      as [[kv1 t1]|] eqn:Hload; [|done].
    simpl. intros [= <-]. by eapply load_words_routed.
Qed.

(** In every reachable table the active entries sit in the shard their
    key is routed to and fit their buffers. *)
Lemma reachable_routed kv : reachable kv -> routed kv.
Proof.
  intros (sys & ops & Hrun). revert Hrun. generalize routed_init_store.
  generalize init_store. induction ops as [|o rest IH]; intros kv0 Hr; simpl.
  - by intros [= <-].
  - destruct (step sys o kv0) as [kv1|] eqn:Hstep; [|done]. simpl.
    apply IH. by eapply step_routed.
Qed.



(** ** Tables built by [set] alone *)

Lemma shard_set_entries k v l m sh' :
  shard_set k v (((fun p => mkEntry p.1 p.2 true) <$> l) ++ replicate m empty_entry)
  = Some sh' ->
  exists m', sh' = ((fun p => mkEntry p.1 p.2 true) <$> upsert k v l)
                     ++ replicate m' empty_entry /\
             (length (upsert k v l) + m' = length l + m)%nat.
Proof.
  revert sh'. induction l as [|p l IH]; intros sh'.
  - rewrite fmap_nil, app_nil_l. destruct m as [|m]; [done|].
    rewrite replicate_S, shard_set_cons. intros [= <-]. exists m. split; [done|].
    simpl. lia.
  - rewrite fmap_cons, <- app_comm_cons, shard_set_cons.
    unfold slot_usable. cbn [is_active key negb orb upsert].
    destruct (String.eqb p.1 k).
    + intros [= <-]. exists m. split; [done|]. simpl. lia.
    + destruct (shard_set k v _) as [sh1|]; [|done]. intros [= <-].
      destruct (IH sh1 eq_refl) as (m' & -> & Hlen). exists m'. split; [done|].
      simpl. lia.
Qed.

Lemma shard_set_upsert k v l sh' :
  (length l <= MAX_KEYS)%nat ->
  shard_set k v (compact l) = Some sh' ->
  sh' = compact (upsert k v l) /\ (length (upsert k v l) <= MAX_KEYS)%nat.
Proof.
  intros Hlen Hset. apply shard_set_entries in Hset as (m' & -> & Hm).
  split; [|lia]. unfold compact. do 2 f_equal. lia.
Qed.

Lemma upsert_keys k v l :
  (upsert k v l).*1 = if decide (k ∈ l.*1) then l.*1 else l.*1 ++ [k].
Proof.
  induction l as [|p l IH]; [done|]. cbn [upsert].
  destruct (String.eqb_spec p.1 k) as [Heq|Hne].
  - rewrite !fmap_cons. cbn [fst]. rewrite decide_True by (rewrite Heq; apply list_elem_of_here).
    by rewrite Heq.
  - rewrite !fmap_cons, IH. destruct (decide (k ∈ l.*1)) as [Hin|Hnin].
    + by rewrite decide_True by (by apply list_elem_of_further).
    + rewrite decide_False; [done|].
      intros [Heq|Hin]%elem_of_cons; [by apply Hne|by apply Hnin].
Qed.

Lemma upsert_NoDup k v l : NoDup l.*1 -> NoDup (upsert k v l).*1.
Proof.
  intros Hnd. rewrite upsert_keys. destruct (decide (k ∈ l.*1)); [done|].
  apply NoDup_app. repeat split; [done| |apply NoDup_singleton].
  intros x Hx ->%list_elem_of_singleton. done.
Qed.


Lemma actives_entries l m :
  actives (((fun p => mkEntry p.1 p.2 true) <$> l) ++ replicate m empty_entry) = l.
Proof.
  induction l as [|[k v] l IH]; simpl.
  - induction m as [|m IHm]; [done|]. by rewrite replicate_S.
  - f_equal. exact IH.
Qed.

Lemma actives_compact l : actives (compact l) = l.
Proof. apply actives_entries. Qed.





(** ** The stream of the loader *)




Lemma peek_ended bufsize disk f : ended f -> peek bufsize disk f = (None, f).
Proof. intros [Hb He]. unfold peek. by rewrite Hb, He. Qed.

Lemma peek_None bufsize disk f f' : peek bufsize disk f = (None, f') -> ended f'.
Proof.
  unfold peek. destruct (buffered f) eqn:Hb; [|done].
  destruct (at_eof f) eqn:He; [by intros [= <-]|].
  destruct (substring _ _ _); [|done]. by intros [= <-].
Qed.

Lemma peek_Some bufsize disk f c f' :
  peek bufsize disk f = (Some c, f') -> exists r, buffered f' = String c r.
Proof.
  unfold peek. destruct (buffered f) eqn:Hb.
  - destruct (at_eof f); [done|]. destruct (substring _ _ _); [done|].
    intros [= <- <-]. by eexists.
  - intros [= <- <-]. by eexists.
Qed.





(** *** The words the stream delivers *)

Lemma read_word_grows bufsize disk :
  forall steps f cur w f',
    read_word steps bufsize disk f cur = Some (w, f') -> exists s, w = cur +:+ s.
Proof.
  induction steps as [|steps IH]; intros f cur w f'; [done|]. cbn [read_word].
  destruct (peek bufsize disk f) as [[c|] f1].
  - destruct (isspace c).
    + intros [= <- <-]. exists "". by rewrite append_nil_r.
    + intros H. apply IH in H as [s ->]. exists (String c s). by rewrite append_assoc.
  - intros [= <- <-]. exists "". by rewrite append_nil_r.
Qed.

Lemma skip_stream_space_stops bufsize disk :
  forall steps f f',
    skip_stream_space steps bufsize disk f = Some f' ->
    ended f' \/ exists c r, buffered f' = String c r /\ isspace c = false.
Proof.
  induction steps as [|steps IH]; intros f f'; [done|]. cbn [skip_stream_space].
  destruct (peek bufsize disk f) as [[c|] f1] eqn:Hpeek.
  - destruct (isspace c) eqn:Hc; [apply IH|].
    intros [= <-]. right. apply peek_Some in Hpeek as [r Hr]. by exists c, r.
  - intros [= <-]. left. by eapply peek_None.
Qed.

(** A conversion fails at the end of the input only. *)
Lemma conv_s_None steps bufsize disk f f' :
  conv_s steps bufsize disk f = Some (None, f') -> ended f'.
Proof.
  unfold conv_s. destruct (skip_stream_space steps bufsize disk f) as [f1|] eqn:Hskip;
    [|done].
  cbn [mbind option_bind].
  destruct (read_word steps bufsize disk f1 "") as [[w f2]|] eqn:Hread; [|done].
  cbn [mbind option_bind fst snd]. destruct w as [|a w]; [|done]. intros [= <-].
  destruct steps as [|steps]; [done|]. cbn [read_word] in Hread.
  apply skip_stream_space_stops in Hskip as [Hend|(c & r & Hb & Hc)].
  - rewrite (peek_ended _ _ _ Hend) in Hread. by injection Hread as <-.
  - unfold peek in Hread. rewrite Hb, Hc in Hread.
    apply read_word_grows in Hread as [s Hs]. done.
Qed.

Lemma fscanf_pair_key steps bufsize disk f k f' :
  fscanf_pair steps bufsize disk f = Some (ScanKey k, f') -> ended f'.
Proof.
  unfold fscanf_pair. destruct (conv_s steps bufsize disk f) as [[[k1|] f1]|]; [|done..].
  cbn [mbind option_bind fst snd].
  destruct (conv_s steps bufsize disk f1) as [[[v|] f2]|] eqn:Hconv; [done| |done].
  cbn [mbind option_bind fst snd]. intros [= _ <-]. by eapply conv_s_None.
Qed.

Lemma load_stream_ended fuel steps sys bufsize disk f buf kv r :
  ended f ->
  load_stream fuel steps sys bufsize disk f buf kv = Some r -> r = Done (kv, []).
Proof.
  intros Hend. destruct fuel as [|fuel]; [done|]. cbn [load_stream].
  unfold fscanf_pair, conv_s. destruct steps as [|steps]; [done|].
  cbn [skip_stream_space read_word]. rewrite (peek_ended _ _ _ Hend).
  cbn [mbind option_bind]. rewrite (peek_ended _ _ _ Hend).
  cbn [mbind option_bind fst snd]. by intros [= <-].
Qed.

(** Whatever the file and its rewriting make the stream deliver, the
    loop of [load_from_disk] is [load_words] on the words delivered. *)
Lemma load_stream_delivers steps sys bufsize :
  forall fuel disk f buf kv r,
    load_stream fuel steps sys bufsize disk f buf kv = Some r ->
    exists words, load_words sys words buf kv = r.
Proof.
  induction fuel as [|fuel IH]; intros disk f buf kv r; [done|]. cbn [load_stream].
  destruct (fscanf_pair steps bufsize disk f) as [[[|k|k v] f']|] eqn:Hscan; [| | |done].
  - intros [= <-]. by exists [].
  - destruct (MAX_KEY_LENGTH <=? String.length k)%nat eqn:Hk.
    { intros [= <-]. exists [k]. cbn [load_words]. by rewrite Hk. }
    destruct buf as [v|]; [|intros [= <-]; exists [k]; cbn [load_words]; by rewrite Hk].
    destruct (set_key sys k v kv) as [[kv' t]|why] eqn:Hset; cbn [then_load].
    + destruct (load_stream fuel steps sys bufsize (written t disk) f' (Some v) kv')
        as [r'|] eqn:Hrest; [|done].
      apply load_stream_ended in Hrest; [|by eapply fscanf_pair_key]. subst r'.
      intros [= <-]. exists [k]. cbn [load_words]. by rewrite Hk, Hset, app_nil_r.
    + intros [= <-]. exists [k]. cbn [load_words]. by rewrite Hk, Hset.
  - destruct (MAX_KEY_LENGTH <=? String.length k)%nat eqn:Hk.
    { intros [= <-]. exists [k; v]. cbn [load_words]. by rewrite Hk. }
    destruct (MAX_VALUE_LENGTH <=? String.length v)%nat eqn:Hv.
    { intros [= <-]. exists [k; v]. cbn [load_words]. by rewrite Hk, Hv. }
    destruct (set_key sys k v kv) as [[kv' t]|why] eqn:Hset; cbn [then_load].
    + destruct (load_stream fuel steps sys bufsize (written t disk) f' (Some v) kv')
        as [r'|] eqn:Hrest; [|done].
      apply IH in Hrest as [words Hwords].
      intros Hr. exists (k :: v :: words). cbn [load_words].
      rewrite Hk, Hv, Hset. cbn [mbind outcome_bind fst snd]. rewrite Hwords.
      destruct r' as [[kv'' t']|why]; by injection Hr as <-.
    + intros [= <-]. exists [k; v]. cbn [load_words]. by rewrite Hk, Hv, Hset.
Qed.

Lemma load_from_disk_delivers sys bufsize fuel file kv r :
  load_from_disk sys bufsize fuel file kv = Some r ->
  exists words, load_words sys words None kv = r.
Proof.
  destruct file as [content|]; simpl.
  - apply load_stream_delivers.
  - intros [= <-]. by exists [].
Qed.

(** A load that returns is a step of a run. *)
Lemma load_from_disk_reachable sys bufsize fuel file ops kv kv' t :
  run sys ops init_store = Done kv ->
  load_from_disk sys bufsize fuel file kv = Some (Done (kv', t)) ->
  reachable kv'.
Proof.
  intros Hrun Hload. apply load_from_disk_delivers in Hload as [words Hwords].
  exists sys, (ops ++ [OpLoad words]).
  revert Hrun. generalize init_store. induction ops as [|o ops IH]; intros kv0; simpl.
  - intros [= ->]. by rewrite Hwords.
  - destruct (step sys o kv0) as [kv1|]; [|done]. simpl. apply IH.
Qed.

(** *** A file that fits the buffer, loaded into the empty table *)




















(** ** Restoring a snapshot *)




(** * The claims *)

(** ** Concrete stores *)

Lemma full_store_run : run sys_ok fill_ops init_store = Done full_store.
Proof. vm_compute. reflexivity. Qed.

Lemma full_store_reachable : reachable full_store.
Proof. exists sys_ok, fill_ops. apply full_store_run. Qed.

Lemma tombstone_store_reachable : reachable tombstone_store.
Proof. exists sys_ok, tombstone_ops. vm_compute. reflexivity. Qed.

Lemma duplicate_store_reachable : reachable duplicate_store.
Proof. exists sys_ok, (tombstone_ops ++ [OpSet "d" "3"]). vm_compute. reflexivity. Qed.

Lemma init_store_reachable : reachable init_store.
Proof. by exists sys_ok, []. Qed.

(** ** C1 *)

(** C1 (fails on the code).  The claim: in every reachable state a shard
    holds at most one active entry per key.  The run
    [set a 1; set d 2; delete a; set d 3] (keys of shard 1) ends with two
    active entries under ["d"]: the scan of [set_key] stops at the freed
    slot 0 before it reaches the active entry of ["d"] in slot 1. *)
Theorem duplicate_active_entry :
  reachable duplicate_store /\
  slot_at duplicate_store 1 0 = Some (mkEntry "d" "3" true) /\
  slot_at duplicate_store 1 1 = Some (mkEntry "d" "2" true) /\
  ~ (forall kv, reachable kv ->
       forall i sh k, kv !! i = Some sh -> (active_count k sh <= 1)%nat).
Proof.
  split; [apply duplicate_store_reachable|].
  split; [by vm_compute|]. split; [by vm_compute|].
  intros H.
  specialize (H duplicate_store duplicate_store_reachable 1%nat
                (default [] (duplicate_store !! 1%nat)) "d" eq_refl).
  vm_compute in H. lia.
Qed.

(** The stale read that follows: after [delete d] the older value is back. *)
Lemma stale_read_after_delete :
  exists kv t, delete_key "d" duplicate_store = Done (kv, t) /\
               get_key "d" kv = Done (Some "2").
Proof. eexists _, _. split; by vm_compute. Qed.

(** ** C2 *)

(** C2 (fails on the code).  The claim: [set] overwrites the active
    entry of the key when there is one, and claims a free slot only
    otherwise.  In [tombstone_store] slot 1 of shard 1 is the active
    entry of ["d"], yet [set d 3] writes the freed slot 0 and leaves
    slot 1 as it was. *)
Theorem set_prefers_free_slot :
  reachable tombstone_store /\
  slot_at tombstone_store 1 1 = Some (mkEntry "d" "2" true) /\
  exists kv t, set_key sys_ok "d" "3" tombstone_store = Done (kv, t) /\
               slot_at kv 1 0 = Some (mkEntry "d" "3" true) /\
               slot_at kv 1 1 = Some (mkEntry "d" "2" true).
Proof.
  split; [apply tombstone_store_reachable|]. split; [by vm_compute|].
  eexists _, _. split; [by vm_compute|]. split; by vm_compute.
Qed.

(** What the scan does on every input: it writes the first slot that is
    inactive or holds the key, whatever lies behind it. *)
Lemma set_key_writes_first_usable sys k v kv kv' e t :
  set_key sys k v kv = Done (kv', e :: t) ->
  exists sh i, shard_at kv (get_shard_index k) = Done sh /\
               find_slot (slot_usable k) sh = Some i /\
               kv' = <[Z.to_nat (get_shard_index k) := <[i := mkEntry k v true]> sh]> kv.
Proof.
  unfold set_key.
  destruct (shard_at kv (get_shard_index k)) as [sh|] eqn:Hs; [|done].
  cbn [mbind outcome_bind].
  destruct (find_slot (slot_usable k) sh) as [i|] eqn:Hf; [|done].
  destruct (MAX_KEY_LENGTH <=? String.length k)%nat; [done|].
  destruct (MAX_VALUE_LENGTH <=? String.length v)%nat; [done|].
  intros H. injection H as <- _ _. by exists sh, i.
Qed.

(** ** C3 *)






(** Beyond the buffer of the stream the loader reads the file it has
    rewritten itself.  The snapshot of [wide_store] has 5200 bytes.  The
    first [read] takes 4096 of them: 39 lines, the key of the 40th and 36
    bytes of its value.  When the buffer is used up the file holds the 39
    entries loaded so far, 4056 bytes, and the [read] at offset 4096
    finds nothing: the 40th key is restored with a value of 36 bytes and
    the ten keys that follow are not restored. *)
Lemma load_rewrites_its_own_input :
  reachable wide_store /\
  String.length (persist_to_disk wide_store) = (52 * 100)%nat /\
  get_key (fill_key 39) wide_store = Done (Some wide_value) /\
  get_key (fill_key 49) wide_store = Done (Some wide_value) /\
  exists kv' t,
    load_from_disk sys_ok stream_buffer (60 * 100) (Some (persist_to_disk wide_store))
                   init_store
    = Some (Done (kv', t)) /\
    get_key (fill_key 38) kv' = Done (Some wide_value) /\
    get_key (fill_key 39) kv' = Done (Some (substring 0 36 wide_value)) /\
    get_key (fill_key 49) kv' = Done None /\
    String.length (persist_to_disk kv') = (64 * 64 + 1)%nat.
Proof.
  split; [exists sys_ok, wide_ops; vm_compute; reflexivity|].
  split; [vm_compute; reflexivity|]. split; [vm_compute; reflexivity|].
  split; [vm_compute; reflexivity|].
  eexists _, _. split; [vm_compute; reflexivity|].
  repeat split; vm_compute; reflexivity.
Qed.

(** ** C4 *)

(** C4 (counterexample).  Shard 0 of [full_store] holds [MAX_KEYS]
    active entries, none under ["kac"].  [set kac v] returns like any
    other call, with the store as it was and no event; the REST handler
    answers 200 "set successfully"; the pair is gone. *)
Lemma set_full_shard_reports_nothing :
  reachable full_store /\
  target_slot "kac" full_store = None /\
  set_key sys_ok "kac" "v" full_store = Done (full_store, []) /\
  get_key "kac" full_store = Done None /\
  (exists body,
     http_handler sys_ok "POST" "/set/kac/v" full_store
     = Done (mkReply MHD_HTTP_OK body, full_store, [])).
Proof.
  split; [apply full_store_reachable|].
  split; [by vm_compute|]. split; [by vm_compute|]. split; [by vm_compute|].
  eexists. by vm_compute.
Qed.

(** C4 (amended).  For every [set(key, value)] whose target shard holds
    only active entries, none of which has that key, the call returns
    without any error indication: nothing is stored, logged, persisted
    or replicated, the REST handler still answers 200, the store is
    unchanged (so every stored key reads as before) and [get(key)]
    finds nothing. *)
Theorem set_on_full_shard sys k v kv sh :
  shard_at kv (get_shard_index k) = Done sh ->
  Forall (fun e => is_active e = true /\ key e <> k) sh ->
  set_key sys k v kv = Done (kv, []) /\
  get_key k kv = Done None /\
  (forall url, sscanf_set url = Some (k, v) ->
     exists body, http_handler sys "POST" url kv
                  = Done (mkReply MHD_HTTP_OK body, kv, [])).
Proof.
  intros Hs Hfull. apply shard_set_None with (v := v) in Hfull.
  assert (Hset : set_key sys k v kv = Done (kv, [])).
  { by rewrite set_key_shard, Hs, Hfull. }
  split; [done|]. split.
  - by rewrite get_key_shard, Hs, (shard_set_None_get _ _ _ Hfull).
  - intros url Hurl. rewrite (http_handler_post _ _ _ _ _ Hurl), Hset. eauto.
Qed.

Lemma set_on_full_shard_witness :
  set_key sys_ok "kac" "v" full_store = Done (full_store, []) /\
  get_key "kac" full_store = Done None /\
  (forall url, sscanf_set url = Some ("kac", "v") ->
     exists body, http_handler sys_ok "POST" url full_store
                  = Done (mkReply MHD_HTTP_OK body, full_store, [])).
Proof.
  apply (set_on_full_shard sys_ok "kac" "v" full_store
           (default [] (full_store !! 0%nat))).
  - vm_compute. reflexivity.
  - apply (shard_set_None "kac" "v"). vm_compute. reflexivity.
Defined.

(** ** C5 *)

(** C5 (counterexample).  [set_key] checks no length and has no error
    to return.  With a key of 50 bytes or a value of 100 bytes its
    [strcpy] leaves the entry's buffer; and a REST request with a value
    of 100 bytes is answered 200 and changes the store: the first 99
    bytes are stored. *)
Lemma set_does_not_validate :
  set_key sys_ok long_key "v" init_store = Undefined KeyBufferOverrun /\
  set_key sys_ok "k" long_value init_store = Undefined ValueBufferOverrun /\
  exists body kv t,
    http_handler sys_ok "POST" ("/set/k/" +:+ long_value) init_store
    = Done (mkReply MHD_HTTP_OK body, kv, t) /\
    kv <> init_store /\
    get_key "k" kv = Done (Some (substring 0 99 long_value)).
Proof.
  split; [by vm_compute|]. split; [by vm_compute|].
  eexists _, _, _. split; [vm_compute; reflexivity|].
  split; [|by vm_compute]. intros H. vm_compute in H. discriminate.
Qed.

(** C5 (amended).  The length limits are enforced by the REST handler,
    not by [set]: every pair the handler converts from a POST request
    has a key of fewer than [MAX_KEY_LENGTH] and a value of fewer than
    [MAX_VALUE_LENGTH] bytes; a request whose key part has
    [MAX_KEY_LENGTH] bytes or more is answered 400 before [set] is
    called, with every shard unchanged and no event; a value part of
    [MAX_VALUE_LENGTH] bytes or more is not rejected but cut to its
    first 99 bytes. *)
Theorem http_set_length_guard sys url kv :
  (forall k v, sscanf_set url = Some (k, v) ->
     (String.length k < MAX_KEY_LENGTH)%nat /\
     (String.length v < MAX_VALUE_LENGTH)%nat) /\
  (forall k rest,
     url = "/set/" +:+ k +:+ rest ->
     string_forall not_slash k = true ->
     (MAX_KEY_LENGTH <= String.length k)%nat ->
     exists body, http_handler sys "POST" url kv
                  = Done (mkReply MHD_HTTP_BAD_REQUEST body, kv, [])) /\
  (forall k v rest,
     url = "/set/" +:+ k +:+ "/" +:+ v +:+ rest ->
     string_forall not_slash k = true ->
     (0 < String.length k < MAX_KEY_LENGTH)%nat ->
     string_forall not_space v = true ->
     (MAX_VALUE_LENGTH <= String.length v)%nat ->
     sscanf_set url = Some (k, substring 0 99 v)).
Proof.
  split; [intros k v; apply sscanf_set_bounds|]. split.
  - intros k rest -> Hk Hlen. eexists. apply http_handler_post_invalid.
    + eapply strip_prefix_prefix, strip_prefix_app.
    + by apply sscanf_set_long_key.
  - intros k v rest -> Hk Hklen Hv Hvlen. by apply sscanf_set_long_value.
Qed.

Lemma http_set_length_guard_witness :
  ((String.length "name" < MAX_KEY_LENGTH)%nat /\
   (String.length "Voyager" < MAX_VALUE_LENGTH)%nat) /\
  (exists body, http_handler sys_ok "POST" ("/set/" +:+ long_key +:+ "/v") init_store
                = Done (mkReply MHD_HTTP_BAD_REQUEST body, init_store, [])) /\
  sscanf_set ("/set/" +:+ "k" +:+ "/" +:+ long_value +:+ "")
  = Some ("k", substring 0 99 long_value).
Proof.
  split; [|split].
  - apply (proj1 (http_set_length_guard sys_ok "/set/name/Voyager" init_store)).
    vm_compute. reflexivity.
  - apply (proj1 (proj2 (http_set_length_guard sys_ok
                           ("/set/" +:+ long_key +:+ "/v") init_store))
             long_key "/v").
    + reflexivity.
    + vm_compute. reflexivity.
    + vm_compute. lia.
  - apply (proj2 (proj2 (http_set_length_guard sys_ok
                           ("/set/" +:+ "k" +:+ "/" +:+ long_value +:+ "") init_store))
             "k" long_value "").
    + reflexivity.
    + vm_compute. reflexivity.
    + vm_compute. lia.
    + vm_compute. reflexivity.
    + vm_compute. lia.
Defined.

(** ** C6 *)

(** C6 (counterexample).  Shard 0 of [full_store] holds [MAX_KEYS]
    other keys: [set kac v] returns without storing and [get kac] finds
    nothing. *)
Lemma set_then_get_full_shard :
  ~ (forall kv k v,
       reachable kv ->
       (String.length k < MAX_KEY_LENGTH)%nat ->
       (String.length v < MAX_VALUE_LENGTH)%nat ->
       exists kv' t, set_key sys_ok k v kv = Done (kv', t) /\
                     get_key k kv' = Done (Some v)).
Proof.
  intros H.
  destruct (H full_store (fill_key MAX_KEYS) "v" full_store_reachable)
    as (kv' & t & Hset & Hget); [vm_compute; lia..|].
  assert (Hs : set_key sys_ok (fill_key MAX_KEYS) "v" full_store
               = Done (full_store, [])) by (vm_compute; reflexivity).
  rewrite Hs in Hset. injection Hset as <- <-.
  vm_compute in Hget. discriminate.
Qed.

(** C6 (amended).  For every store state (in particular every reachable
    one), every key [k] and value [v] within the length limits such that
    the shard [k] is routed to has an inactive slot or a slot holding [k]:
    [set(k, v)] is defined and stores the pair, and the [get(k)] that
    follows returns [v]. *)
Theorem set_then_get sys k v kv :
  (String.length k < MAX_KEY_LENGTH)%nat ->
  (String.length v < MAX_VALUE_LENGTH)%nat ->
  is_Some (target_slot k kv) ->
  exists kv' t, set_key sys k v kv = Done (kv', t) /\
                get_key k kv' = Done (Some v).
Proof.
  intros Hk Hv Hroom.
  destruct (set_key_defined sys k v kv Hk Hv Hroom) as (kv' & e & t & Hset).
  exists kv', (e :: t). split; [done|].
  by rewrite (get_after_set _ _ _ _ _ _ Hset).
Qed.

Lemma set_then_get_witness :
  exists kv' t, set_key sys_ok "name" "Voyager" init_store = Done (kv', t) /\
                get_key "name" kv' = Done (Some "Voyager").
Proof.
  apply (set_then_get sys_ok "name" "Voyager" init_store).
  - vm_compute. lia.
  - vm_compute. lia.
  - vm_compute. eauto.
Defined.

(** ** C7 *)

(** C7 (counterexample).  ["kac"] is absent from the full shard 0:
    [delete kac] changes nothing, [set kac v2] finds no slot, and
    [get kac] still returns nothing. *)
Lemma delete_set_get_full_shard :
  ~ (forall kv k v2,
       reachable kv ->
       exists kv1 t1 kv2 t2,
         delete_key k kv = Done (kv1, t1) /\
         get_key k kv1 = Done None /\
         set_key sys_ok k v2 kv1 = Done (kv2, t2) /\
         get_key k kv2 = Done (Some v2)).
Proof.
  intros H.
  destruct (H full_store "kac" "v2" full_store_reachable)
    as (kv1 & t1 & kv2 & t2 & Hdel & _ & Hset & Hget).
  assert (Hd : delete_key "kac" full_store = Done (full_store, []))
    by (vm_compute; reflexivity).
  rewrite Hd in Hdel. injection Hdel as <- <-.
  assert (Hs : set_key sys_ok "kac" "v2" full_store = Done (full_store, []))
    by (vm_compute; reflexivity).
  rewrite Hs in Hset. injection Hset as <- <-.
  vm_compute in Hget. discriminate.
Qed.

(** C7 (amended).  For every store state and every key [k] routed to a
    shard of the table that holds at most one active entry under [k]:
    [delete(k)] is defined and the [get(k)] that follows finds nothing;
    and when moreover [k] and [v2] are within the length limits and the
    shard had an inactive slot or a slot holding [k] (as it has whenever
    [k] was stored), the later [set(k, v2)] is defined and [get(k)] then
    returns [v2]. *)
Theorem delete_then_get_then_set sys k v2 kv sh :
  shard_at kv (get_shard_index k) = Done sh ->
  (active_count k sh <= 1)%nat ->
  exists kv1 t1,
    delete_key k kv = Done (kv1, t1) /\
    get_key k kv1 = Done None /\
    ((String.length k < MAX_KEY_LENGTH)%nat ->
     (String.length v2 < MAX_VALUE_LENGTH)%nat ->
     is_Some (target_slot k kv) ->
     exists kv2 t2, set_key sys k v2 kv1 = Done (kv2, t2) /\
                    get_key k kv2 = Done (Some v2)).
Proof.
  intros Hs Hone. destruct (delete_key_defined k kv sh Hs) as [t1 Hdel].
  eexists _, t1. split; [done|].
  pose proof (shard_at_insert_eq _ _ _ (shard_del k sh) Hs) as Hs1.
  split.
  - by rewrite get_key_shard, Hs1, shard_get_del.
  - intros Hk Hv Hroom. apply set_key_then_get; [done..|].
    unfold target_slot in *. rewrite Hs1. rewrite Hs in Hroom.
    by apply shard_set_del_room.
Qed.

Lemma delete_then_get_then_set_witness :
  exists kv1 t1,
    delete_key "a" tombstone_store = Done (kv1, t1) /\
    get_key "a" kv1 = Done None /\
    ((String.length "a" < MAX_KEY_LENGTH)%nat ->
     (String.length "2" < MAX_VALUE_LENGTH)%nat ->
     is_Some (target_slot "a" tombstone_store) ->
     exists kv2 t2, set_key sys_ok "a" "2" kv1 = Done (kv2, t2) /\
                    get_key "a" kv2 = Done (Some "2")).
Proof.
  apply (delete_then_get_then_set sys_ok "a" "2" tombstone_store
           (default [] (tombstone_store !! 1%nat))).
  - vm_compute. reflexivity.
  - vm_compute. lia.
Defined.

(** A stored key always leaves room for itself. *)
Lemma stored_key_has_slot k kv v :
  get_key k kv = Done (Some v) -> is_Some (target_slot k kv).
Proof.
  rewrite get_key_shard. unfold target_slot.
  destruct (shard_at kv (get_shard_index k)) as [sh|]; [|done].
  intros [= Hget]. destruct (find_slot (slot_usable k) sh) eqn:Hf; [eauto|].
  apply find_slot_None in Hf. unfold shard_get in Hget.
  destruct (find_slot (slot_matches k) sh) as [i|] eqn:Hm; [|done].
  apply find_slot_Some in Hm as (e & Hl & Hp & _).
  eapply Forall_lookup_1 in Hf; [|done].
  apply slot_matches_usable in Hp. congruence.
Qed.

(** ** C8 *)

(** C8 (fails on the code).  The claim: the router returns an index in
    [[0, SHARD_COUNT)] for every key, whatever its bytes.  [key[i]] is a
    plain [char]: a byte of 128 or more is a negative [int] and C's [%]
    keeps its sign.  For the one-byte key [0x80] the router returns
    [-2], for the UTF-8 bytes of "e acute" ([0xC3 0xA9]) it returns [-1],
    and both [set_key] and [get_key] then index [kv_shards] out of its
    bounds. *)
Theorem router_negative_index :
  get_shard_index (String (ascii_of_nat 128) EmptyString) = (-2)%Z /\
  get_shard_index (String (ascii_of_nat 195) (String (ascii_of_nat 169) EmptyString))
    = (-1)%Z /\
  get_key (String (ascii_of_nat 128) EmptyString) init_store
    = Undefined ShardIndexOutOfBounds /\
  set_key sys_ok (String (ascii_of_nat 128) EmptyString) "v" init_store
    = Undefined ShardIndexOutOfBounds /\
  ~ (forall k, (0 <= get_shard_index k < SHARD_COUNT)%Z).
Proof.
  repeat split; try (vm_compute; reflexivity).
  intros H. specialize (H (String (ascii_of_nat 128) EmptyString)).
  vm_compute in H. destruct H as [H _]. by apply H.
Qed.

(** ** C9 *)

(** C9.  When [set(key, value)] returns, the replication hook has run
    exactly once, with [(key, value)], if the pair was stored (the
    following [get] returns it), and not at all otherwise; and with any
    other behaviour of [system] the call returns the same store: the
    status of the replication is dropped. *)
Theorem replication_best_effort sys k v kv kv' t :
  set_key sys k v kv = Done (kv', t) ->
  (get_key k kv' = Done (Some v) -> replications t = [(k, v)]) /\
  (get_key k kv' <> Done (Some v) -> replications t = []) /\
  (forall sys', exists t', set_key sys' k v kv = Done (kv', t') /\
                           replications t' = replications t).
Proof.
  intros Hset. pose proof (get_after_set _ _ _ _ _ _ Hset) as Hget.
  revert Hset Hget. unfold set_key.
  destruct (shard_at kv (get_shard_index k)) as [sh|]; [|done].
  cbn [mbind outcome_bind].
  destruct (find_slot (slot_usable k) sh) as [i|].
  - destruct (MAX_KEY_LENGTH <=? String.length k)%nat; [done|].
    destruct (MAX_VALUE_LENGTH <=? String.length v)%nat; [done|].
    intros H. injection H as <- <-. intros Hget.
    split; [done|]. split; [by rewrite Hget|].
    intros sys'. eexists. split; reflexivity.
  - intros H. injection H as <- <-. intros Hget.
    split; [by rewrite Hget|]. split; [done|].
    intros sys'. eexists. split; reflexivity.
Qed.

Lemma replication_best_effort_witness :
  (get_key "name" voyager_store = Done (Some "Voyager") ->
   replications (voyager_trace sys_fail) = [("name", "Voyager")]) /\
  (get_key "name" voyager_store <> Done (Some "Voyager") ->
   replications (voyager_trace sys_fail) = []) /\
  (forall sys', exists t',
     set_key sys' "name" "Voyager" init_store = Done (voyager_store, t') /\
     replications t' = replications (voyager_trace sys_fail)).
Proof.
  apply (replication_best_effort sys_fail "name" "Voyager" init_store).
  vm_compute. reflexivity.
Defined.

(** ** C10 *)

(** A call that returns has written at most one slot, in the shard the
    router selects. *)
Lemma returned_write_one_slot sys k v kv kv' t :
  set_key sys k v kv = Done (kv', t) \/ delete_key k kv = Done (kv', t) ->
  one_slot_written k kv kv'.
Proof.
  unfold set_key, delete_key, one_slot_written.
  destruct (shard_at kv (get_shard_index k)) as [sh|] eqn:Hs;
    [|by intros [|]].
  apply shard_at_Done in Hs as [Hz Hl]. cbn [mbind outcome_bind].
  intros H. split; [done|]. split; [eauto|]. destruct H as [H|H].
  - destruct (find_slot (slot_usable k) sh) as [i|].
    + destruct (MAX_KEY_LENGTH <=? String.length k)%nat; [done|].
      destruct (MAX_VALUE_LENGTH <=? String.length v)%nat; [done|].
      injection H as <- <-. exists i. intros i' j' Hne.
      by apply slot_at_insert_insert.
    + injection H as <- <-. by exists 0%nat.
  - destruct (find_slot (slot_matches k) sh) as [i|].
    + injection H as <- <-. exists i. intros i' j' Hne.
      by apply slot_at_insert_alter.
    + injection H as <- <-. by exists 0%nat.
Qed.

(** C10 (counterexample).  The claim speaks of every key and value.
    [set_key] copies with [strcpy] and checks no length: the value of
    200 bytes, stored under ["k"] in slot 0 of shard 2, runs past the
    buffer [value] of that slot and over the slot that follows.  And
    the one-byte key 0x80 is routed to index -2: [delete_key] locks and
    scans [kv_shards[-2]], outside the table.  Neither call stays
    within one slot of the selected shard. *)
Lemma write_outside_the_slot :
  target_slot "k" init_store = Some 0%nat /\
  set_key sys_ok "k" spilling_value init_store = Undefined ValueBufferOverrun /\
  get_shard_index (String (ascii_of_nat 128) "") = (-2)%Z /\
  delete_key (String (ascii_of_nat 128) "") init_store = Undefined ShardIndexOutOfBounds /\
  ~ (forall sys k v kv, wf_store kv ->
       (exists kv' t, set_key sys k v kv = Done (kv', t) /\ one_slot_written k kv kv') /\
       (exists kv' t, delete_key k kv = Done (kv', t) /\ one_slot_written k kv kv')).
Proof.
  split; [by vm_compute|].
  split; [by vm_compute|]. split; [by vm_compute|]. split; [by vm_compute|].
  intros H.
  destruct (H sys_ok "k" spilling_value init_store wf_init_store)
    as [(kv' & t & Hset & _) _].
  vm_compute in Hset. discriminate Hset.
Qed.

(** C10 (amended).  For every key [k] that the router sends to a shard
    of the table: [delete(k)] returns and, when [k] and [v] fit the
    buffers of an entry, so does [set(k, v)]; the call has written at
    most one slot, which lies in the shard selected by the router for
    [k]: every slot of every other shard and every other slot of that
    shard is as before. *)
Theorem write_touches_one_slot sys k v kv :
  wf_store kv -> (0 <= get_shard_index k)%Z ->
  ((String.length k < MAX_KEY_LENGTH)%nat ->
   (String.length v < MAX_VALUE_LENGTH)%nat ->
   exists kv' t, set_key sys k v kv = Done (kv', t) /\ one_slot_written k kv kv') /\
  (exists kv' t, delete_key k kv = Done (kv', t) /\ one_slot_written k kv kv').
Proof.
  intros Hwf Hz.
  destruct (shard_at_wf kv _ Hwf (conj Hz (proj2 (get_shard_index_range k))))
    as [sh Hsh].
  split.
  - intros Hk Hv.
    destruct (set_key_returns sys k v kv sh Hsh Hk Hv) as (kv' & t & Hset).
    exists kv', t. split; [done|].
    apply (returned_write_one_slot sys k v kv kv' t). by left.
  - destruct (delete_key_defined k kv sh Hsh) as (t & Hdel).
    eexists _, t. split; [exact Hdel|].
    apply (returned_write_one_slot sys k v kv _ t). by right.
Qed.

Lemma write_touches_one_slot_witness :
  (exists kv' t, set_key sys_ok "d" "3" tombstone_store = Done (kv', t) /\
                 one_slot_written "d" tombstone_store kv') /\
  (exists kv' t, delete_key "d" tombstone_store = Done (kv', t) /\
                 one_slot_written "d" tombstone_store kv').
Proof.
  destruct (write_touches_one_slot sys_ok "d" "3" tombstone_store) as [Hset Hdel].
  - split; [reflexivity|]. repeat constructor.
  - by vm_compute.
  - split; [|exact Hdel]. apply Hset; vm_compute; lia.
Defined.

(** * Further properties of the store *)

(** ** Router *)

Lemma ascii7_key_Forall k :
  ascii7_key k = true <-> Forall (fun c => is_ascii7 c = true) (list_ascii_of_string k).
Proof.
  induction k as [|c k IH]; simpl; [by split; [constructor|]|].
  rewrite andb_true_iff, Forall_cons. by rewrite IH.
Qed.

Lemma byte_sum_list k :
  byte_sum k = foldr (fun c acc => (char_to_int c + acc)%Z) 0%Z (list_ascii_of_string k).
Proof. induction k as [|c k IH]; simpl; [done|]. by rewrite IH. Qed.

Lemma byte_sum_Permutation l1 l2 :
  l1 ≡ₚ l2 ->
  foldr (fun c acc => (char_to_int c + acc)%Z) 0%Z l1
  = foldr (fun c acc => (char_to_int c + acc)%Z) 0%Z l2.
Proof. induction 1; simpl; lia. Qed.

(** X1.  On a key of 7-bit bytes the router returns a shard of the
    table, namely the sum of the bytes modulo [SHARD_COUNT]. *)
Theorem router_7bit (k : string) :
  ascii7_key k = true ->
  (0 <= get_shard_index k < SHARD_COUNT)%Z /\
  get_shard_index k = (byte_sum k mod SHARD_COUNT)%Z.
Proof.
  intros Hk. split; [by apply get_shard_index_ascii7|by apply get_shard_index_byte_sum].
Qed.

Lemma router_7bit_witness :
  (0 <= get_shard_index "name" < SHARD_COUNT)%Z /\
  get_shard_index "name" = (byte_sum "name" mod SHARD_COUNT)%Z.
Proof. apply (router_7bit "name"). vm_compute. reflexivity. Defined.

(** X2.  Whatever the key, every [hash * 31 + key[i]] the router
    computes fits an [int] and the index it returns lies strictly
    between [-SHARD_COUNT] and [SHARD_COUNT]. *)
Theorem router_no_overflow (k : string) :
  shard_loop_in_int char_to_int k 0 /\
  (- SHARD_COUNT < get_shard_index k < SHARD_COUNT)%Z.
Proof. split; [apply get_shard_index_fits_int|apply get_shard_index_range]. Qed.

(** X3.  Two 7-bit keys made of the same bytes in another order are
    routed to the same shard: the multiplier 31 is 1 modulo
    [SHARD_COUNT], so the order of the bytes is lost. *)
Theorem router_anagram (k1 k2 : string) :
  ascii7_key k1 = true ->
  list_ascii_of_string k1 ≡ₚ list_ascii_of_string k2 ->
  get_shard_index k1 = get_shard_index k2.
Proof.
  intros Hk1 Hperm.
  assert (Hk2 : ascii7_key k2 = true).
  { apply ascii7_key_Forall. rewrite <- Hperm. by apply ascii7_key_Forall. }
  rewrite !get_shard_index_byte_sum by done.
  by rewrite !byte_sum_list, (byte_sum_Permutation _ _ Hperm).
Qed.

Lemma router_anagram_witness : get_shard_index "listen" = get_shard_index "silent".
Proof.
  apply (router_anagram "listen" "silent").
  - vm_compute. reflexivity.
  - apply (bool_decide_unpack _). vm_compute. exact I.
Defined.

(** ** Invariants of the reachable tables *)

(** X4.  In every reachable table each active entry sits in the shard
    the router gives for its key, and its key and value fit the
    buffers of the entry. *)
Theorem reachable_entries_routed kv i j e :
  reachable kv ->
  slot_at kv i j = Some e -> is_active e = true ->
  get_shard_index (key e) = Z.of_nat i /\
  (String.length (key e) < MAX_KEY_LENGTH)%nat /\
  (String.length (value e) < MAX_VALUE_LENGTH)%nat.
Proof. intros Hr Hslot Ha. by apply (reachable_routed kv Hr i j e Hslot). Qed.

Lemma reachable_entries_routed_witness :
  get_shard_index (key (mkEntry "d" "2" true)) = Z.of_nat 1 /\
  (String.length (key (mkEntry "d" "2" true)) < MAX_KEY_LENGTH)%nat /\
  (String.length (value (mkEntry "d" "2" true)) < MAX_VALUE_LENGTH)%nat.
Proof.
  apply (reachable_entries_routed tombstone_store 1 1 (mkEntry "d" "2" true)).
  - exists sys_ok, tombstone_ops. vm_compute. reflexivity.
  - vm_compute. reflexivity.
  - reflexivity.
Defined.

(** ** How the operations compose *)

(** X5.  A [set] or a [delete] of key [k] that returns does not change
    what [get] returns for any other key, in any state of the table. *)
Theorem write_keeps_other_keys sys k k' v kv kv' t :
  k <> k' ->
  set_key sys k v kv = Done (kv', t) \/ delete_key k kv = Done (kv', t) ->
  get_key k' kv' = get_key k' kv.
Proof.
  intros Hne [Hset|Hdel].
  - by eapply get_after_set_other.
  - by eapply get_after_delete_other.
Qed.

Lemma write_keeps_other_keys_witness :
  get_key "a" duplicate_store = get_key "a" tombstone_store.
Proof.
  eapply (write_keeps_other_keys sys_ok "d" "a" "3" tombstone_store duplicate_store).
  - discriminate.
  - left. vm_compute. reflexivity.
Defined.

Lemma find_slot_insert_usable k v sh i :
  find_slot (slot_usable k) sh = Some i ->
  find_slot (slot_usable k) (<[i := mkEntry k v true]> sh) = Some i.
Proof.
  revert i. induction sh as [|e rest IH]; intros i; simpl; [done|].
  destruct (slot_usable k e) eqn:Hu.
  - intros [= <-]. simpl. unfold slot_usable. simpl. by rewrite String.eqb_refl.
  - destruct (find_slot (slot_usable k) rest) as [i'|] eqn:Hf; [|done].
    simpl. intros [= <-]. simpl. rewrite Hu. by rewrite (IH i' eq_refl).
Qed.

(** X6.  Writing a key again takes no new slot: after a [set(k, v1)]
    that returned, [set(k, v2)] does exactly what it would have done
    without the first call (same table, same events, same outcome). *)
Theorem set_overwrites_own_slot sys k v1 v2 kv kv1 t1 :
  set_key sys k v1 kv = Done (kv1, t1) ->
  set_key sys k v2 kv1 = set_key sys k v2 kv.
Proof.
  unfold set_key.
  destruct (shard_at kv (get_shard_index k)) as [sh|] eqn:Hs; [|done].
  cbn [mbind outcome_bind].
  destruct (find_slot (slot_usable k) sh) as [i|] eqn:Hf.
  - destruct (MAX_KEY_LENGTH <=? String.length k)%nat eqn:Hk; [done|].
    destruct (MAX_VALUE_LENGTH <=? String.length v1)%nat; [done|].
    intros H. injection H as <- _.
    rewrite (shard_at_insert_eq _ _ _ _ Hs). cbn [mbind outcome_bind].
    rewrite (find_slot_insert_usable _ _ _ _ Hf).
    by rewrite !list_insert_insert_eq.
  - intros H. injection H as <- _. rewrite Hs. cbn [mbind outcome_bind].
    by rewrite Hf.
Qed.

Lemma set_overwrites_own_slot_witness :
  set_key sys_ok "name" "Enterprise" voyager_store
  = set_key sys_ok "name" "Enterprise" init_store.
Proof.
  apply (set_overwrites_own_slot sys_ok "name" "Voyager" "Enterprise" init_store
           voyager_store (voyager_trace sys_ok)).
  vm_compute. reflexivity.
Defined.

(** X7.  Deleting a key that [get] does not find changes nothing and
    prints nothing. *)
Theorem delete_missing_key k kv :
  get_key k kv = Done None -> delete_key k kv = Done (kv, []).
Proof.
  unfold get_key, delete_key.
  destruct (shard_at kv (get_shard_index k)) as [sh|]; [|done].
  cbn [mbind outcome_bind].
  destruct (find_slot (slot_matches k) sh) as [i|] eqn:Hf; [|done].
  apply find_slot_Some in Hf as (e & -> & _). done.
Qed.

Lemma delete_missing_key_witness :
  delete_key "name" init_store = Done (init_store, []).
Proof. apply (delete_missing_key "name" init_store). vm_compute. reflexivity. Defined.

Lemma active_count_shard_del k sh :
  active_count k (shard_del k sh) = pred (active_count k sh).
Proof.
  induction sh as [|e rest IH]; [done|]. rewrite shard_del_cons.
  destruct (slot_matches k e) eqn:Hm; simpl.
  - by rewrite Hm.
  - by rewrite Hm, IH.
Qed.

Lemma active_count_shard_del_other k k' sh :
  k <> k' -> active_count k' (shard_del k sh) = active_count k' sh.
Proof.
  intros Hne. induction sh as [|e rest IH]; [done|]. rewrite shard_del_cons.
  destruct (slot_matches k e) eqn:Hm; simpl.
  - by rewrite (slot_usable_other k k' e Hne (slot_matches_usable _ _ Hm)).
  - by rewrite IH.
Qed.

(** X8.  A [delete(k)] that returns removes one active entry of [k]
    from its shard, if there is one, and leaves the number of active
    entries of every other key as it was: it never adds an entry. *)
Theorem delete_removes_one k kv kv' t sh sh' :
  delete_key k kv = Done (kv', t) ->
  shard_at kv (get_shard_index k) = Done sh ->
  shard_at kv' (get_shard_index k) = Done sh' ->
  active_count k sh' = pred (active_count k sh) /\
  forall k', k <> k' -> active_count k' sh' = active_count k' sh.
Proof.
  intros (sh0 & Hs0 & ->)%delete_key_state Hs Hs'.
  rewrite Hs in Hs0. injection Hs0 as <-.
  rewrite (shard_at_insert_eq _ _ _ _ Hs) in Hs'. injection Hs' as <-.
  split; [apply active_count_shard_del|].
  intros k' Hne. by apply active_count_shard_del_other.
Qed.

Lemma delete_removes_one_witness :
  active_count "a" (default [] (tombstone_store !! 1%nat))
  = pred (active_count "a" (default [] (two_keys_store !! 1%nat))) /\
  forall k', "a" <> k' ->
    active_count k' (default [] (tombstone_store !! 1%nat))
    = active_count k' (default [] (two_keys_store !! 1%nat)).
Proof.
  eapply (delete_removes_one "a" two_keys_store tombstone_store).
  - vm_compute. reflexivity.
  - vm_compute. reflexivity.
  - vm_compute. reflexivity.
Defined.

(** ** Runs without delete *)

Lemma active_count_absent k sh :
  k ∉ (actives sh).*1 -> active_count k sh = 0%nat.
Proof.
  induction sh as [|e rest IH]; [done|]. simpl. unfold slot_matches.
  destruct (is_active e); simpl; [|done].
  rewrite not_elem_of_cons. intros [Hne Hk].
  destruct (String.eqb_spec (key e) k) as [Heq|_]; [by destruct Hne|].
  by apply IH.
Qed.

Lemma NoDup_active_count k sh :
  NoDup (actives sh).*1 -> (active_count k sh <= 1)%nat.
Proof.
  induction sh as [|e rest IH]; [simpl; lia|]. simpl. unfold slot_matches.
  destruct (is_active e); simpl; [|done].
  rewrite NoDup_cons. intros [Hnotin Hnd].
  destruct (String.eqb_spec (key e) k) as [<-|_]; [|by apply IH].
  rewrite (active_count_absent _ _ Hnotin). lia.
Qed.

Lemma packed_init_store : packed init_store.
Proof.
  intros i sh Hl. unfold init_store in Hl. apply lookup_replicate in Hl as [-> _].
  exists []. repeat split; [simpl; lia|constructor].
Qed.

Lemma set_key_packed sys k v kv kv' t :
  packed kv -> set_key sys k v kv = Done (kv', t) -> packed kv'.
Proof.
  intros Hc. rewrite set_key_shard.
  destruct (shard_at kv (get_shard_index k)) as [sh|] eqn:Hs; [|done].
  apply shard_at_Done in Hs as [Hz Hl].
  destruct (shard_set k v sh) as [sh'|] eqn:Hset; [|by intros [= <- <-]].
  destruct (MAX_KEY_LENGTH <=? String.length k)%nat; [done|].
  destruct (MAX_VALUE_LENGTH <=? String.length v)%nat; [done|].
  intros H. injection H as <- <-. intros i shi Hi.
  destruct (decide (i = Z.to_nat (get_shard_index k))) as [->|Hne].
  - rewrite list_lookup_insert_eq in Hi by (by apply lookup_lt_Some in Hl).
    injection Hi as <-. destruct (Hc _ _ Hl) as (l & -> & Hlen & Hnd).
    apply shard_set_upsert in Hset as [-> Hlen']; [|done].
    exists (upsert k v l). repeat split; [done|by apply upsert_NoDup].
  - rewrite list_lookup_insert_ne in Hi by done. by eapply Hc.
Qed.

(** What [set_key] keeps, the loop of [load_from_disk] keeps. *)
Lemma load_words_preserves (P : KVStore -> Prop) sys :
  (forall k v kv kv' t, P kv -> set_key sys k v kv = Done (kv', t) -> P kv') ->
  forall words buf kv kv' t,
    P kv -> load_words sys words buf kv = Done (kv', t) -> P kv'.
Proof.
  intros Hset words.
  induction words as [words IH] using (induction_ltof1 _ (@length string)).
  unfold ltof in IH. intros buf kv kv' t HP.
  destruct words as [|k [|v rest]]; cbn [load_words].
  - by intros [= <- <-].
  - destruct (MAX_KEY_LENGTH <=? String.length k)%nat; [done|].
    destruct buf as [v|]; [|done]. by apply Hset.
  - destruct (MAX_KEY_LENGTH <=? String.length k)%nat; [done|].
    destruct (MAX_VALUE_LENGTH <=? String.length v)%nat; [done|].
    destruct (set_key sys k v kv) as [[kv1 t1]|] eqn:Hs; [|done].
    cbn [mbind outcome_bind fst snd].
    destruct (load_words sys rest (Some v) kv1) as [[kv2 t2]|] eqn:Hload; [|done].
    cbn [mbind outcome_bind fst snd]. intros [= <- <-].
    eapply (IH rest); [simpl; lia| |done]. by eapply Hset.
Qed.

Lemma run_no_delete_packed sys ops kv0 kv :
  forallb (fun o => negb (is_delete o)) ops = true ->
  packed kv0 -> run sys ops kv0 = Done kv -> packed kv.
Proof.
  revert kv0. induction ops as [|o rest IH]; intros kv0 Hnd Hp; simpl.
  - by intros [= <-].
  - simpl in Hnd. apply andb_true_iff in Hnd as [Ho Hnd].
    destruct (step sys o kv0) as [kv1|] eqn:Hstep; [|done].
    cbn [mbind outcome_bind]. apply IH; [done|]. clear IH.
    destruct o as [k v|k|k|words]; simpl in Hstep; [| |done|].
    + destruct (set_key sys k v kv0) as [[kv2 t2]|] eqn:Hset; [|done].
      simpl in Hstep. injection Hstep as <-. by eapply set_key_packed.
    + destruct (get_key k kv0); [|done]. simpl in Hstep. by injection Hstep as <-.
    + destruct (load_words sys words None kv0) as [[kv2 t2]|] eqn:Hload; [|done].
      simpl in Hstep. injection Hstep as <-.
      eapply (load_words_preserves packed sys); [|exact Hp|exact Hload].
      intros ? ? ? ? ?. apply set_key_packed.
Qed.

(** X9.  As long as nothing is deleted the store keeps the invariant of
    its shards: after any run of [set], [get] and snapshot loads from
    the zero-initialised table, no shard holds two active entries
    under one key. *)
Theorem no_delete_one_entry_per_key sys ops kv i sh k :
  forallb (fun o => negb (is_delete o)) ops = true ->
  run sys ops init_store = Done kv ->
  kv !! i = Some sh ->
  (active_count k sh <= 1)%nat.
Proof.
  intros Hnd Hrun Hl.
  destruct (run_no_delete_packed sys ops init_store kv Hnd packed_init_store Hrun
              i sh Hl) as (l & -> & _ & Hl').
  apply NoDup_active_count. by rewrite actives_compact.
Qed.

Lemma no_delete_one_entry_per_key_witness :
  (active_count "aaa" (default [] (full_store !! 0%nat)) <= 1)%nat.
Proof.
  apply (no_delete_one_entry_per_key sys_ok fill_ops full_store 0
           (default [] (full_store !! 0%nat)) "aaa").
  - vm_compute. reflexivity.
  - vm_compute. reflexivity.
  - vm_compute. reflexivity.
Defined.

(** ** Replication command *)

(** X10.  The command built for [system] never exceeds the 255 bytes
    [command[256]] holds next to the terminator, and for a key and a
    value within the limits of an entry it is complete: the [curl] call
    on the follower's [/set/<key>/<value>], not a truncation of it. *)
Theorem replicate_command_complete k v :
  (String.length (replicate_command k v) <= 255)%nat /\
  ((String.length k < MAX_KEY_LENGTH)%nat ->
   (String.length v < MAX_VALUE_LENGTH)%nat ->
   replicate_command k v
   = "curl -X POST http://127.0.0.1:8081/set/" +:+ k +:+ "/" +:+ v).
Proof.
  split; [apply substring_length_le|].
  intros Hk Hv. unfold replicate_command. apply substring_all.
  rewrite !length_append. unfold REPLICA_SERVER, MAX_KEY_LENGTH, MAX_VALUE_LENGTH in *.
  cbn [String.length]. lia.
Qed.

Lemma replicate_command_complete_witness :
  (String.length (replicate_command "name" "Voyager") <= 255)%nat /\
  ((String.length "name" < MAX_KEY_LENGTH)%nat ->
   (String.length "Voyager" < MAX_VALUE_LENGTH)%nat ->
   replicate_command "name" "Voyager"
   = "curl -X POST http://127.0.0.1:8081/set/" +:+ "name" +:+ "/" +:+ "Voyager").
Proof. apply (replicate_command_complete "name" "Voyager"). Defined.

(** ** Snapshots and restarts *)







(** ** REST handler *)

Lemma scan_while_all n p s :
  string_forall p s = true -> (String.length s <= n)%nat ->
  scan_while n p s = (s, "").
Proof.
  revert s. induction n as [|n IH]; intros [|a s] Hs Hn; simpl in *; try done; try lia.
  apply andb_true_iff in Hs as [Ha Hs]. rewrite Ha, IH; [done..|lia].
Qed.

Lemma plain_word_spec w :
  plain_word w = true -> w <> "" /\ string_forall not_space w = true.
Proof.
  unfold plain_word. intros [H0%Nat.ltb_lt Hs]%andb_true_iff. split; [|done].
  intros ->. simpl in H0. lia.
Qed.

Lemma skip_space_word w :
  string_forall not_space w = true -> skip_space w = w.
Proof.
  destruct w as [|a w]; [done|]. simpl. intros [Ha _]%andb_true_iff.
  unfold not_space in Ha. apply negb_true_iff in Ha. by rewrite Ha.
Qed.

Lemma sscanf_set_exact k v :
  k <> "" -> string_forall not_slash k = true ->
  (String.length k < MAX_KEY_LENGTH)%nat ->
  plain_word v = true -> (String.length v < MAX_VALUE_LENGTH)%nat ->
  sscanf_set ("/set/" +:+ k +:+ "/" +:+ v) = Some (k, v).
Proof.
  intros Hk0 Hk Hkl [Hv0 Hv]%plain_word_spec Hvl.
  unfold sscanf_set. rewrite strip_prefix_app. cbn [mbind option_bind].
  change ("/" +:+ v) with (String slash v).
  rewrite scan_while_stop;
    [|done|unfold MAX_KEY_LENGTH in *; lia|by unfold not_slash; rewrite Ascii.eqb_refl].
  destruct k as [|a k]; [done|]. rewrite Ascii.eqb_refl.
  rewrite (skip_space_word _ Hv).
  rewrite scan_while_all; [|done|unfold MAX_VALUE_LENGTH in *; lia].
  by destruct v.
Qed.

Lemma scan_words_end w cur :
  string_forall not_space w = true -> cur +:+ w <> "" ->
  scan_words w cur = [cur +:+ w].
Proof.
  revert cur. induction w as [|a w IH]; intros cur Hw Hne.
  - rewrite append_nil_r in *. simpl. by destruct cur.
  - simpl in Hw. apply andb_true_iff in Hw as [Ha Hw].
    unfold not_space in Ha. apply negb_true_iff in Ha. simpl. rewrite Ha.
    rewrite IH; [|done|].
    + by rewrite append_assoc.
    + rewrite append_assoc. apply append_not_nil_r.
Qed.

Lemma sscanf_word_exact fmt k :
  plain_word k = true -> sscanf_word fmt (fmt +:+ k) = Some k.
Proof.
  intros [Hk0 Hk]%plain_word_spec. unfold sscanf_word.
  rewrite strip_prefix_app. cbn [mbind option_bind].
  by rewrite scan_words_end.
Qed.

Lemma prefix_app p s : String.prefix p (p +:+ s) = true.
Proof. eapply strip_prefix_prefix, strip_prefix_app. Qed.

(** X13.  A pair stored through the REST interface is served back:
    for a key that is a plain word without [/] and a plain-word value,
    both within the limits, and a table with a usable slot for the key,
    [POST /set/<key>/<value>] is answered 200 and the [GET /get/<key>]
    that follows is answered 200 with the body [{"<key>": "<value>"}],
    without changing the table. *)
Theorem http_post_then_get sys k v kv :
  plain_word k = true -> string_forall not_slash k = true ->
  (String.length k < MAX_KEY_LENGTH)%nat ->
  plain_word v = true -> (String.length v < MAX_VALUE_LENGTH)%nat ->
  is_Some (target_slot k kv) ->
  exists body kv' t,
    http_handler sys "POST" ("/set/" +:+ k +:+ "/" +:+ v) kv
    = Done (mkReply MHD_HTTP_OK body, kv', t) /\
    http_handler sys "GET" ("/get/" +:+ k) kv'
    = Done (mkReply MHD_HTTP_OK
              (response ("{" +:+ dquote +:+ k +:+ dquote +:+ ": "
                         +:+ dquote +:+ v +:+ dquote +:+ "}")), kv', []).
Proof.
  intros Hk Hks Hkl Hv Hvl Hroom.
  pose proof (plain_word_spec _ Hk) as [Hk0 _].
  destruct (set_key_then_get sys k v kv Hkl Hvl Hroom) as (kv' & t & Hset & Hget).
  eexists _, kv', t. split.
  - rewrite (http_handler_post sys _ k v kv) by (by apply sscanf_set_exact).
    by rewrite Hset.
  - unfold http_handler. rewrite prefix_app, (sscanf_word_exact _ _ Hk).
    change (String.eqb "GET" "GET") with true. cbn [andb].
    destruct (Nat.leb_spec MAX_KEY_LENGTH (String.length k)); [lia|].
    by rewrite Hget.
Qed.

Lemma http_post_then_get_witness :
  exists body kv' t,
    http_handler sys_ok "POST" ("/set/" +:+ "name" +:+ "/" +:+ "Voyager") init_store
    = Done (mkReply MHD_HTTP_OK body, kv', t) /\
    http_handler sys_ok "GET" ("/get/" +:+ "name") kv'
    = Done (mkReply MHD_HTTP_OK
              (response ("{" +:+ dquote +:+ "name" +:+ dquote +:+ ": "
                         +:+ dquote +:+ "Voyager" +:+ dquote +:+ "}")), kv', []).
Proof.
  apply (http_post_then_get sys_ok "name" "Voyager" init_store).
  - vm_compute. reflexivity.
  - vm_compute. reflexivity.
  - vm_compute. lia.
  - vm_compute. reflexivity.
  - vm_compute. lia.
  - vm_compute. eauto.
Defined.

Lemma strip_prefix_ascii7 p s r :
  strip_prefix p s = Some r -> ascii7_key s = true -> ascii7_key r = true.
Proof.
  revert s. induction p as [|a p IH]; intros [|b s]; simpl; try done.
  - by intros [= <-].
  - by intros [= <-].
  - destruct (Ascii.eqb a b); [|done]. intros Hp [_ Hs]%andb_true_iff. by eapply IH.
Qed.

Lemma scan_while_ascii7 n p s w r :
  scan_while n p s = (w, r) -> ascii7_key s = true -> ascii7_key w = true.
Proof.
  revert s w r. induction n as [|n IH]; intros s w r; simpl.
  - destruct s; by intros [= <- _].
  - destruct s as [|c s]; [by intros [= <- _]|].
    destruct (p c); [|by intros [= <- _]].
    destruct (scan_while n p s) as [w' r'] eqn:Hs.
    intros [= <- _] [Hc Hr]%andb_true_iff. simpl. rewrite Hc. by eapply IH.
Qed.

Lemma sscanf_set_ascii7 url k v :
  sscanf_set url = Some (k, v) -> ascii7_key url = true -> ascii7_key k = true.
Proof.
  unfold sscanf_set. destruct (strip_prefix "/set/" url) as [rest|] eqn:Hp; [|done].
  cbn [mbind option_bind].
  destruct (scan_while 49 not_slash rest) as [k' rest'] eqn:Hk.
  destruct k' as [|a k']; [done|]. destruct rest' as [|c rest']; [done|].
  destruct (Ascii.eqb c slash); [|done].
  destruct (scan_while 99 not_space (skip_space rest')) as [v' r'].
  destruct v' as [|b v']; [done|]. intros [= <- _] Hurl.
  eapply scan_while_ascii7; [done|]. by eapply strip_prefix_ascii7.
Qed.

(** X14.  A POST request of 7-bit bytes never leaves the buffers or the
    table: on a table of [SHARD_COUNT] shards of [MAX_KEYS] slots the
    handler returns a reply for every such URL, whatever its length,
    with status 200 or 400. *)
Theorem http_post_is_safe sys url kv :
  wf_store kv -> ascii7_key url = true ->
  exists r kv' t,
    http_handler sys "POST" url kv = Done (r, kv', t) /\
    (status_code r = MHD_HTTP_OK \/ status_code r = MHD_HTTP_BAD_REQUEST).
Proof.
  intros Hwf Hurl. unfold http_handler.
  change (String.eqb "POST" "GET") with false.
  change (String.eqb "POST" "POST") with true.
  change (String.eqb "POST" "DELETE") with false. cbn [andb].
  destruct (String.prefix "/set/" url); [|eexists _, _, _; split; [done|by right]].
  destruct (sscanf_set url) as [[k v]|] eqn:Hs;
    [|eexists _, _, _; split; [done|by right]].
  destruct (sscanf_set_bounds _ _ _ Hs) as [Hkl Hvl].
  pose proof (sscanf_set_ascii7 _ _ _ Hs Hurl) as Hk.
  destruct (shard_at_wf kv _ Hwf (get_shard_index_ascii7 k Hk)) as [sh Hsh].
  destruct (set_key_returns sys k v kv sh Hsh Hkl Hvl) as (kv' & t & ->).
  eexists _, _, _. split; [done|by left].
Qed.

Lemma http_post_is_safe_witness :
  exists r kv' t,
    http_handler sys_ok "POST" ("/set/" +:+ long_key +:+ "/" +:+ long_value) init_store
    = Done (r, kv', t) /\
    (status_code r = MHD_HTTP_OK \/ status_code r = MHD_HTTP_BAD_REQUEST).
Proof.
  apply (http_post_is_safe sys_ok ("/set/" +:+ long_key +:+ "/" +:+ long_value) init_store).
  - apply wf_init_store.
  - vm_compute. reflexivity.
Defined.

(** X20.  The session of the source's header: for a key that is a plain
    word within the limit and has at most one active entry in its
    shard, [DELETE /delete/<key>] is answered 200 "deleted" (whether or
    not the key was stored) and the [GET /get/<key>] that follows is
    answered 404. *)
Theorem http_delete_then_get sys k kv sh :
  plain_word k = true -> (String.length k < MAX_KEY_LENGTH)%nat ->
  shard_at kv (get_shard_index k) = Done sh ->
  (active_count k sh <= 1)%nat ->
  exists kv' t body,
    http_handler sys "DELETE" ("/delete/" +:+ k) kv
    = Done (mkReply MHD_HTTP_OK
              (response ("{" +:+ dquote +:+ "message" +:+ dquote +:+ ": "
                         +:+ dquote +:+ "Key '" +:+ k +:+ "' deleted"
                         +:+ dquote +:+ "}")), kv', t) /\
    http_handler sys "GET" ("/get/" +:+ k) kv'
    = Done (mkReply MHD_HTTP_NOT_FOUND body, kv', []).
Proof.
  intros Hk Hkl Hs Hone.
  destruct (delete_key_defined k kv sh Hs) as [t Hdel].
  exists (<[Z.to_nat (get_shard_index k) := shard_del k sh]> kv), t. eexists. split.
  - unfold http_handler. rewrite prefix_app, (sscanf_word_exact _ _ Hk).
    change (String.eqb "DELETE" "GET") with false.
    change (String.eqb "DELETE" "POST") with false.
    change (String.eqb "DELETE" "DELETE") with true. cbn [andb].
    destruct (Nat.leb_spec MAX_KEY_LENGTH (String.length k)); [lia|].
    by rewrite Hdel.
  - unfold http_handler. rewrite prefix_app, (sscanf_word_exact _ _ Hk).
    change (String.eqb "GET" "GET") with true. cbn [andb].
    destruct (Nat.leb_spec MAX_KEY_LENGTH (String.length k)); [lia|].
    rewrite get_key_shard, (shard_at_insert_eq _ _ _ _ Hs).
    by rewrite shard_get_del.
Qed.

Lemma http_delete_then_get_witness :
  exists kv' t body,
    http_handler sys_ok "DELETE" ("/delete/" +:+ "name") voyager_store
    = Done (mkReply MHD_HTTP_OK
              (response ("{" +:+ dquote +:+ "message" +:+ dquote +:+ ": "
                         +:+ dquote +:+ "Key '" +:+ "name" +:+ "' deleted"
                         +:+ dquote +:+ "}")), kv', t) /\
    http_handler sys_ok "GET" ("/get/" +:+ "name") kv'
    = Done (mkReply MHD_HTTP_NOT_FOUND body, kv', []).
Proof.
  apply (http_delete_then_get sys_ok "name" voyager_store
           (default [] (voyager_store !! 0%nat))).
  - vm_compute. reflexivity.
  - vm_compute. lia.
  - vm_compute. reflexivity.
  - vm_compute. lia.
Defined.

(** ** Loading a file *)

Lemma load_words_defined sys ws :
  forall buf kv,
    wf_store kv ->
    Forall (fun w => ascii7_key w = true /\ (String.length w < MAX_KEY_LENGTH)%nat) ws ->
    match buf with
    | Some v => (String.length v < MAX_VALUE_LENGTH)%nat
    | None => length ws <> 1%nat
    end ->
    exists kv' t, load_words sys ws buf kv = Done (kv', t).
Proof.
  induction ws as [ws IH] using (induction_ltof1 _ (@length string)).
  unfold ltof in IH. intros buf kv Hwf Hws Hbuf.
  destruct ws as [|k [|v rest]]; cbn [load_words].
  - eauto.
  - apply Forall_cons in Hws as [[Hk Hkl] _].
    destruct (Nat.leb_spec MAX_KEY_LENGTH (String.length k)); [lia|].
    destruct buf as [v|]; [|done].
    destruct (shard_at_wf kv _ Hwf (get_shard_index_ascii7 k Hk)) as [sh Hsh].
    by eapply set_key_returns.
  - apply Forall_cons in Hws as [[Hk Hkl] Hws].
    apply Forall_cons in Hws as [[_ Hvl] Hws].
    assert (Hvl' : (String.length v < MAX_VALUE_LENGTH)%nat)
      by (unfold MAX_KEY_LENGTH, MAX_VALUE_LENGTH in *; lia).
    destruct (Nat.leb_spec MAX_KEY_LENGTH (String.length k)); [lia|].
    destruct (Nat.leb_spec MAX_VALUE_LENGTH (String.length v)); [lia|].
    destruct (shard_at_wf kv _ Hwf (get_shard_index_ascii7 k Hk)) as [sh Hsh].
    destruct (set_key_returns sys k v kv sh Hsh Hkl Hvl') as (kv1 & t1 & Hset).
    rewrite Hset. cbn [mbind outcome_bind fst snd].
    destruct (IH rest ltac:(simpl; lia) (Some v) kv1) as (kv2 & t2 & ->);
      [by eapply set_key_wf|done|done|].
    cbn [mbind outcome_bind fst snd]. eauto.
Qed.



(** X22.  The loop of [load_from_disk] on any well-formed table: when
    the words its conversions deliver are 7-bit, all shorter than
    [MAX_KEY_LENGTH], and not exactly one in number, it never leaves the
    buffers or the table and returns. *)
Theorem load_loop_is_safe sys words kv :
  wf_store kv ->
  Forall (fun w => ascii7_key w = true /\ (String.length w < MAX_KEY_LENGTH)%nat) words ->
  length words <> 1%nat ->
  exists kv' t, load_words sys words None kv = Done (kv', t).
Proof. intros Hwf Hws Hlen. by apply load_words_defined. Qed.

Lemma load_loop_is_safe_witness :
  exists kv' t, load_words sys_ok ["a"; "b"; "c"] None tombstone_store = Done (kv', t).
Proof.
  apply (load_loop_is_safe sys_ok ["a"; "b"; "c"] tombstone_store).
  - split; [reflexivity|]. repeat constructor.
  - repeat constructor.
  - simpl. lia.
Defined.







(** * Sharpness value *)

Lemma for_loop_S {St : Type} (body : St -> nat -> St) lo c s :
  for_loop body lo (S c) s = body (for_loop body lo c s) (lo + c)%nat.
Proof.
  revert lo s. induction c as [|c IH]; intros lo s.
  - simpl. by rewrite Nat.add_0_r.
  - change (for_loop body lo (S (S c)) s) with (for_loop body (S lo) (S c) (body s lo)).
    rewrite IH. simpl. by rewrite Nat.add_succ_r.
Qed.

Lemma c_max_max a b : c_max a b = Z.max a b.
Proof. unfold c_max. destruct (Z.gtb_spec a b); lia. Qed.

Lemma c_min_min a b : c_min a b = Z.min a b.
Proof. unfold c_min. destruct (Z.ltb_spec a b); lia. Qed.

Lemma relaxed_ext p q m i :
  (forall i', p i' = q i') -> relaxed p m i = relaxed q m i.
Proof. intros H. unfold relaxed. by rewrite !H. Qed.

Lemma relaxed_ext_rows p q m i :
  (forall i', (i' < m)%nat -> p i' = q i') -> (i < m)%nat ->
  relaxed p m i = relaxed q m i.
Proof.
  intros H Hi. unfold relaxed.
  destruct (Nat.ltb_spec 0 i); destruct (Nat.ltb_spec i (m - 1));
    rewrite ?(H i), ?(H (i - 1)%nat), ?(H (i + 1)%nat) by lia; done.
Qed.

(** ** The table of [findSharpnessValue] *)

Lemma set_cell_shape t m n i j v :
  table_shape t m n -> table_shape (set_cell t i j v) m n.
Proof.
  intros [Hlen Hrows]. split; [unfold set_cell; by rewrite length_alter|].
  apply Forall_alter; [done|]. intros row _ Hrow. by rewrite length_insert.
Qed.

Lemma cell_set_cell t m n i j v i' j' :
  table_shape t m n -> (i < m)%nat -> (j < n)%nat ->
  cell (set_cell t i j v) i' j' = if decide (i' = i /\ j' = j) then v else cell t i' j'.
Proof.
  intros [Hlen Hrows] Hi Hj. unfold cell, set_cell. rewrite list_lookup_alter.
  destruct (decide (i = i')) as [<-|Hne].
  - destruct (lookup_lt_is_Some_2 t i) as [row Hrow]; [lia|]. rewrite Hrow. simpl.
    assert (length row = n) by (by eapply Forall_lookup_1 in Hrows).
    destruct (decide (j' = j)) as [->|Hj'].
    + rewrite decide_True by done. by rewrite list_lookup_insert_eq by lia.
    + rewrite decide_False by (by intros [_ ?]).
      by rewrite list_lookup_insert_ne by done.
  - by rewrite decide_False by (intros [? _]; congruence).
Qed.

Lemma replicate_shape m n : table_shape (replicate m (replicate n 0%Z)) m n.
Proof.
  split; [apply length_replicate|]. apply Forall_replicate, length_replicate.
Qed.

Lemma first_column_spec matrix m n t k :
  table_shape t m n -> (0 < n)%nat -> (k <= m)%nat ->
  let t' := for_loop (fun t i => set_cell t i 0 (cell matrix i 0)) 0 k t in
  table_shape t' m n /\
  forall i j, cell t' i j = if decide (j = 0%nat /\ (i < k)%nat) then cell matrix i 0
                            else cell t i j.
Proof.
  intros Hshape Hn. induction k as [|k IH]; intros Hk.
  - simpl. split; [done|]. intros i j. rewrite decide_False; [done|lia].
  - destruct IH as [Hs IH]; [lia|]. cbn zeta in *. rewrite for_loop_S. simpl.
    split; [by apply set_cell_shape|]. intros i j.
    rewrite (cell_set_cell _ m n) by (done || lia). rewrite IH.
    repeat case_decide; try done; try lia.
    destruct H as [-> ->]. done.
Qed.

Lemma sharpness_cell_step matrix m j t i :
  sharpness_cell matrix m j t i
  = set_cell t i j (c_min (relaxed (fun i' => cell t i' (j - 1)) m i) (cell matrix i j)).
Proof. done. Qed.

Lemma sharpness_column_spec matrix m n t j k :
  table_shape t m n -> (1 <= j < n)%nat -> (k <= m)%nat ->
  let t' := for_loop (sharpness_cell matrix m j) 0 k t in
  table_shape t' m n /\
  forall i' j',
    cell t' i' j'
    = if decide (j' = j /\ (i' < k)%nat)
      then c_min (relaxed (fun i => cell t i (j - 1)) m i') (cell matrix i' j)
      else cell t i' j'.
Proof.
  intros Hshape Hj. induction k as [|k IH]; intros Hk.
  - simpl. split; [done|]. intros i' j'. rewrite decide_False; [done|lia].
  - destruct IH as [Hs IH]; [lia|]. cbn zeta in *. rewrite for_loop_S. simpl.
    rewrite sharpness_cell_step.
    split; [by apply set_cell_shape|]. intros i' j'.
    rewrite (cell_set_cell _ m n) by (done || lia). rewrite IH.
    assert (Hprev : relaxed (fun i0 => cell (for_loop (sharpness_cell matrix m j) 0 k t)
                                         i0 (j - 1)) m k
                    = relaxed (fun i0 => cell t i0 (j - 1)) m k).
    { apply relaxed_ext. intros i0. rewrite IH. rewrite decide_False; [done|lia]. }
    rewrite Hprev.
    repeat case_decide; try done; try lia.
    destruct H as [-> ->]. done.
Qed.

Lemma sharpness_table_spec matrix m n t c :
  table_shape t m n -> (c < n)%nat ->
  (forall i, (i < m)%nat -> cell t i 0 = cell matrix i 0) ->
  let t' := for_loop (fun t j => for_loop (sharpness_cell matrix m j) 0 m t) 1 c t in
  table_shape t' m n /\
  forall i j, (i < m)%nat -> (j <= c)%nat -> cell t' i j = best matrix m j i.
Proof.
  intros Hshape Hc H0. induction c as [|c IH].
  - simpl. split; [done|]. intros i j Hi Hj. assert (j = 0%nat) as -> by lia.
    by apply H0.
  - destruct IH as [Hs IH]; [lia|]. cbn zeta in *. rewrite for_loop_S.
    change (1 + c)%nat with (S c).
    destruct (sharpness_column_spec matrix m n
                (for_loop (fun t j => for_loop (sharpness_cell matrix m j) 0 m t) 1 c t)
                (S c) m Hs ltac:(lia) ltac:(lia)) as [Hs' Hcol].
    cbn zeta in Hcol. split; [done|]. intros i j Hi Hj. rewrite Hcol.
    case_decide as Hd.
    + destruct Hd as [-> _].
      change (best matrix m (S c) i)
        with (c_min (relaxed (best matrix m c) m i) (cell matrix i (S c))).
      f_equal. replace (S c - 1)%nat with c by lia.
      apply relaxed_ext_rows; [|done]. intros i' Hi'. by apply IH.
    + assert (j <= c)%nat.
      { destruct (decide (j = S c)) as [->|]; [|lia]. exfalso. apply Hd. by split. }
      by apply IH.
Qed.

(** ** The array of [findSharpnessValueOptimized] *)

Lemma vec_insert s i v i' :
  (i < length s)%nat ->
  vec (<[i := v]> s) i' = if decide (i' = i) then v else vec s i'.
Proof.
  intros Hi. unfold vec. case_decide as Hd.
  - subst. by rewrite list_lookup_insert_eq.
  - by rewrite list_lookup_insert_ne.
Qed.

Lemma optimized_first_column_spec matrix m s k :
  length s = m -> (k <= m)%nat ->
  let s' := for_loop (fun s i => <[i := cell matrix i 0]> s) 0 k s in
  length s' = m /\
  forall i, vec s' i = if decide (i < k)%nat then cell matrix i 0 else vec s i.
Proof.
  intros Hlen. induction k as [|k IH]; intros Hk.
  - cbn [for_loop]. split; [done|]. intros i. rewrite decide_False; [done|lia].
  - destruct IH as [Hl IH]; [lia|]. cbn zeta in *. rewrite for_loop_S. simpl.
    split; [by rewrite length_insert|]. intros i.
    rewrite vec_insert by lia. rewrite IH.
    repeat case_decide; try done; try lia. by subst.
Qed.

Lemma optimized_column_inner matrix m j s k :
  length s = m -> (k <= m)%nat ->
  let st := for_loop (optimized_cell matrix m j) 0 k (s, vec s 0) in
  length st.1 = m /\
  (forall i, vec st.1 i
             = if decide (i < k)%nat
               then c_min (relaxed (vec s) m i) (cell matrix i j)
               else vec s i) /\
  st.2 = vec s (k - 1).
Proof.
  intros Hlen. induction k as [|k IH]; intros Hk.
  - cbn [for_loop fst snd]. split; [done|]. split; [|done]. intros i.
    rewrite decide_False; [done|lia].
  - destruct IH as (Hl & IH & Hprev); [lia|]. cbn zeta in *. rewrite for_loop_S.
    change (0 + k)%nat with k.
    destruct (for_loop (optimized_cell matrix m j) 0 k (s, vec s 0)) as [sk prev].
    simpl in Hl, IH, Hprev. subst prev. unfold optimized_cell. cbn [fst snd].
    assert (Hk0 : vec sk k = vec s k) by (rewrite IH, decide_False; [done|lia]).
    assert (Hk1 : vec sk (k + 1) = vec s (k + 1)) by (rewrite IH, decide_False; [done|lia]).
    rewrite Hk0, Hk1.
    split; [by rewrite length_insert|]. split.
    + intros i. rewrite vec_insert by lia. rewrite IH.
      repeat case_decide; try done; try lia. by subst.
    + f_equal. lia.
Qed.

Lemma optimized_column_spec matrix m j s :
  length s = m ->
  length (optimized_column matrix m s j) = m /\
  forall i, (i < m)%nat ->
    vec (optimized_column matrix m s j) i
    = c_min (relaxed (vec s) m i) (cell matrix i j).
Proof.
  intros Hlen. unfold optimized_column.
  destruct (optimized_column_inner matrix m j s m Hlen (Nat.le_refl m))
    as (Hl & Hv & _).
  split; [done|]. intros i Hi. rewrite Hv. by rewrite decide_True.
Qed.

Lemma optimized_table_spec matrix m s c :
  length s = m ->
  (forall i, (i < m)%nat -> vec s i = cell matrix i 0) ->
  let s' := for_loop (optimized_column matrix m) 1 c s in
  length s' = m /\
  forall i, (i < m)%nat -> vec s' i = best matrix m c i.
Proof.
  intros Hlen H0. induction c as [|c IH].
  - simpl. by split.
  - destruct IH as [Hl IH]. cbn zeta in *. rewrite for_loop_S.
    change (1 + c)%nat with (S c).
    destruct (optimized_column_spec matrix m (S c) _ Hl) as [Hl' Hv].
    split; [done|]. intros i Hi. rewrite Hv by done.
    change (best matrix m (S c) i)
      with (c_min (relaxed (best matrix m c) m i) (cell matrix i (S c))).
    f_equal. by apply relaxed_ext_rows.
Qed.

(** ** The maximum of the last column *)

Lemma column_max_ext f g m :
  (forall i, (i < m)%nat -> f i = g i) -> column_max f m = column_max g m.
Proof.
  unfold column_max. induction m as [|m IH]; intros H; [done|].
  rewrite !for_loop_S. simpl. rewrite IH by (intros; apply H; lia).
  by rewrite H by lia.
Qed.

Lemma column_max_spec f m :
  (forall i, (i < m)%nat -> (INT_MIN <= f i)%Z) ->
  (INT_MIN <= column_max f m)%Z /\
  (forall i, (i < m)%nat -> (f i <= column_max f m)%Z) /\
  ((0 < m)%nat -> exists i, (i < m)%nat /\ column_max f m = f i).
Proof.
  unfold column_max. induction m as [|m IH]; intros Hf.
  - simpl. split; [done|]. split; intros; lia.
  - destruct IH as (Hlow & Hub & Hatt); [intros; apply Hf; lia|].
    rewrite for_loop_S. simpl.
    set (mx := for_loop (fun mx i => if (f i >? mx)%Z then f i else mx) 0 m INT_MIN) in *.
    specialize (Hf m ltac:(lia)).
    destruct (Z.gtb_spec (f m) mx) as [Hgt|Hle].
    + split; [done|]. split.
      * intros i Hi. destruct (decide (i = m)) as [->|]; [lia|].
        specialize (Hub i ltac:(lia)). lia.
      * intros _. exists m. split; [lia|done].
    + split; [done|]. split.
      * intros i Hi. destruct (decide (i = m)) as [->|]; [lia|].
        apply Hub. lia.
      * intros _. destruct m as [|m'].
        -- exists 0%nat. split; [lia|]. subst mx. simpl in *. lia.
        -- destruct Hatt as (i & Hi & Heq); [lia|]. exists i. split; [lia|done].
Qed.

(** ** Both functions return the maximum of [best] over the last column *)

Lemma findSharpnessValue_best matrix m n :
  (1 <= m)%Z -> (1 <= n)%Z ->
  findSharpnessValue (Some matrix) m n
  = column_max (best matrix (Z.to_nat m) (Z.to_nat n - 1)) (Z.to_nat m).
Proof.
  intros Hm Hn. unfold findSharpnessValue.
  destruct (Z.ltb_spec m 1) as [|_]; [lia|]. destruct (Z.ltb_spec n 1) as [|_]; [lia|].
  cbn [orb].
  destruct (first_column_spec matrix (Z.to_nat m) (Z.to_nat n)
              (replicate (Z.to_nat m) (replicate (Z.to_nat n) 0%Z)) (Z.to_nat m)
              (replicate_shape _ _) ltac:(lia) ltac:(lia)) as [Hs0 H0].
  cbn zeta in H0.
  destruct (sharpness_table_spec matrix (Z.to_nat m) (Z.to_nat n) _ (Z.to_nat n - 1)
              Hs0 ltac:(lia)) as [_ Hbest].
  { intros i Hi. rewrite H0. by rewrite decide_True. }
  cbn zeta in Hbest. apply column_max_ext. intros i Hi. by apply Hbest.
Qed.

Lemma findSharpnessValueOptimized_best matrix m n :
  (1 <= m)%Z -> (1 <= n)%Z ->
  findSharpnessValueOptimized (Some matrix) m n
  = column_max (best matrix (Z.to_nat m) (Z.to_nat n - 1)) (Z.to_nat m).
Proof.
  intros Hm Hn. unfold findSharpnessValueOptimized.
  destruct (Z.ltb_spec m 1) as [|_]; [lia|]. destruct (Z.ltb_spec n 1) as [|_]; [lia|].
  cbn [orb].
  destruct (optimized_first_column_spec matrix (Z.to_nat m)
              (replicate (Z.to_nat m) 0%Z) (Z.to_nat m)
              (length_replicate _ _) ltac:(lia)) as [Hl0 H0].
  cbn zeta in H0.
  destruct (optimized_table_spec matrix (Z.to_nat m) _ (Z.to_nat n - 1) Hl0)
    as [_ Hbest].
  { intros i Hi. rewrite H0. by rewrite decide_True. }
  cbn zeta in Hbest. apply column_max_ext. intros i Hi. by apply Hbest.
Qed.

(** X17.  The space-optimised function returns what the table version
    returns: on a NULL matrix, on dimensions below 1 (both return -1)
    and on every matrix of [m] rows of [n] [int]s. *)
Theorem optimized_agrees (matrix : option (list (list Z))) (m n : Z) :
  (forall mat, matrix = Some mat -> (1 <= m)%Z -> (1 <= n)%Z ->
               int_matrix mat (Z.to_nat m) (Z.to_nat n)) ->
  findSharpnessValueOptimized matrix m n = findSharpnessValue matrix m n.
Proof.
  intros _. destruct matrix as [mat|]; [|done].
  destruct (Z.ltb_spec m 1) as [Hm|Hm].
  { unfold findSharpnessValueOptimized, findSharpnessValue.
    destruct (Z.ltb_spec m 1); [done|lia]. }
  destruct (Z.ltb_spec n 1) as [Hn|Hn].
  { unfold findSharpnessValueOptimized, findSharpnessValue.
    destruct (Z.ltb_spec n 1); [by rewrite orb_true_r|lia]. }
  by rewrite findSharpnessValueOptimized_best, findSharpnessValue_best.
Qed.

Lemma optimized_agrees_witness :
  findSharpnessValueOptimized (Some main_matrix) 3 3
  = findSharpnessValue (Some main_matrix) 3 3.
Proof.
  apply (optimized_agrees (Some main_matrix) 3 3).
  intros mat [= <-] _ _. split; [reflexivity|].
  repeat constructor; vm_compute; discriminate.
Defined.

(** ** Paths *)

Lemma relaxed_ge p m r r' :
  (r < m)%nat -> (r' < m)%nat -> (r' <= r + 1)%nat -> (r <= r' + 1)%nat ->
  (p r' <= relaxed p m r)%Z.
Proof.
  intros Hr Hr' H1 H2. unfold relaxed. rewrite !c_max_max.
  destruct (Nat.ltb_spec 0 r); destruct (Nat.ltb_spec r (m - 1));
    rewrite ?c_max_max;
    (destruct (decide (r' = r)) as [->|];
     [lia|destruct (decide (r' = r - 1)%nat) as [->|];
          [lia|assert (r' = r + 1)%nat as -> by lia; lia]]).
Qed.

Lemma relaxed_attained p m r :
  (r < m)%nat ->
  exists r', (r' < m)%nat /\ (r' <= r + 1)%nat /\ (r <= r' + 1)%nat /\
             relaxed p m r = p r'.
Proof.
  intros Hr. unfold relaxed.
  destruct (Nat.ltb_spec 0 r); destruct (Nat.ltb_spec r (m - 1));
    rewrite ?c_max_max.
  - destruct (Z.max_spec (Z.max (p r) (p (r - 1)%nat)) (p (r + 1)%nat)) as [[_ ->]|[_ ->]].
    + exists (r + 1)%nat. repeat split; lia.
    + destruct (Z.max_spec (p r) (p (r - 1)%nat)) as [[_ ->]|[_ ->]].
      * exists (r - 1)%nat. repeat split; lia.
      * exists r. repeat split; lia.
  - destruct (Z.max_spec (p r) (p (r - 1)%nat)) as [[_ ->]|[_ ->]].
    + exists (r - 1)%nat. repeat split; lia.
    + exists r. repeat split; lia.
  - destruct (Z.max_spec (p r) (p (r + 1)%nat)) as [[_ ->]|[_ ->]].
    + exists (r + 1)%nat. repeat split; lia.
    + exists r. repeat split; lia.
  - exists r. repeat split; lia.
Qed.

Lemma path_ok_row m r rest : path_ok m r rest -> (r < m)%nat.
Proof. destruct rest; by intros [? _]. Qed.

Lemma best_upper matrix m rest :
  forall r, path_ok m r rest ->
            (path_min matrix r rest <= best matrix m (length rest) r)%Z.
Proof.
  induction rest as [|r' rest IH]; intros r Hok.
  - simpl. lia.
  - destruct Hok as (Hr & H1 & H2 & Hok').
    pose proof (path_ok_row _ _ _ Hok') as Hr'. specialize (IH r' Hok').
    cbn [path_min best length]. rewrite c_min_min.
    pose proof (relaxed_ge (best matrix m (length rest)) m r r' Hr Hr' H1 H2). lia.
Qed.

Lemma best_achieved matrix m j :
  forall r, (r < m)%nat ->
    exists rest, length rest = j /\ path_ok m r rest /\
                 path_min matrix r rest = best matrix m j r.
Proof.
  induction j as [|j IH]; intros r Hr.
  - exists []. by repeat split.
  - destruct (relaxed_attained (best matrix m j) m r Hr) as (r' & Hr' & H1 & H2 & Heq).
    destruct (IH r' Hr') as (rest & Hlen & Hok & Hmin).
    exists (r' :: rest). split; [simpl; by rewrite Hlen|]. split; [by repeat split|].
    cbn [path_min best]. rewrite c_min_min, Heq, Hmin. simpl. rewrite Hlen. lia.
Qed.

Lemma cell_int matrix m n i j :
  int_matrix matrix m n -> (INT_MIN <= cell matrix i j)%Z.
Proof.
  intros [_ Hrows]. unfold cell. destruct (matrix !! i) as [row|] eqn:Hrow; [|done].
  eapply Forall_lookup_1 in Hrows as [_ Hrow']; [|done].
  destruct (row !! j) as [x|] eqn:Hx; [|done]. simpl.
  eapply Forall_lookup_1 in Hrow'; [|done]. lia.
Qed.

Lemma best_int matrix m n j i :
  int_matrix matrix m n -> (INT_MIN <= best matrix m j i)%Z.
Proof.
  intros Hm. revert i. induction j as [|j IH]; intros i.
  - by eapply cell_int.
  - cbn [best]. rewrite c_min_min. pose proof (cell_int matrix m n i (S j) Hm).
    assert (INT_MIN <= relaxed (best matrix m j) m i)%Z; [|lia].
    unfold relaxed.
    destruct (0 <? i)%nat; destruct (i <? m - 1)%nat; rewrite ?c_max_max;
      pose proof (IH i); pose proof (IH (i - 1)%nat); pose proof (IH (i + 1)%nat); lia.
Qed.

(** X18.  [findSharpnessValue] returns the sharpness of the best path:
    among the paths that take one entry in every column, from column 0
    to column [n - 1], and move by at most one row between columns,
    the value returned is the smallest entry of some path, and no path
    has a larger smallest entry. *)
Theorem sharpness_is_best_path matrix (m n : Z) :
  (1 <= m)%Z -> (1 <= n)%Z ->
  int_matrix matrix (Z.to_nat m) (Z.to_nat n) ->
  (exists r rest,
     length rest = (Z.to_nat n - 1)%nat /\ path_ok (Z.to_nat m) r rest /\
     path_min matrix r rest = findSharpnessValue (Some matrix) m n) /\
  (forall r rest,
     length rest = (Z.to_nat n - 1)%nat -> path_ok (Z.to_nat m) r rest ->
     (path_min matrix r rest <= findSharpnessValue (Some matrix) m n)%Z).
Proof.
  intros Hm Hn Hmat. rewrite findSharpnessValue_best by done.
  destruct (column_max_spec (best matrix (Z.to_nat m) (Z.to_nat n - 1)) (Z.to_nat m))
    as (_ & Hub & Hatt).
  { intros i _. by eapply best_int. }
  split.
  - destruct Hatt as (i & Hi & ->); [lia|].
    destruct (best_achieved matrix (Z.to_nat m) (Z.to_nat n - 1) i Hi)
      as (rest & Hlen & Hok & Hmin).
    by exists i, rest.
  - intros r rest Hlen Hok. pose proof (best_upper matrix _ rest r Hok) as Hle.
    rewrite Hlen in Hle. specialize (Hub r (path_ok_row _ _ _ Hok)). lia.
Qed.

Lemma sharpness_is_best_path_witness :
  (exists r rest,
     length rest = (Z.to_nat 3 - 1)%nat /\ path_ok (Z.to_nat 3) r rest /\
     path_min main_matrix r rest = findSharpnessValue (Some main_matrix) 3 3) /\
  (forall r rest,
     length rest = (Z.to_nat 3 - 1)%nat -> path_ok (Z.to_nat 3) r rest ->
     (path_min main_matrix r rest <= findSharpnessValue (Some main_matrix) 3 3)%Z).
Proof.
  apply (sharpness_is_best_path main_matrix 3 3).
  - lia.
  - lia.
  - split; [reflexivity|]. repeat constructor; vm_compute; discriminate.
Defined.
